(** * turbo-stream: the streaming orchestration engine

    A shallow embedding of [src/turbo-stream.ts]: the decode orchestrator
    ([decode], [decodeInitial], [decodeDeferred]), the encode orchestrator
    ([encode] with its two settlement handlers) and [raceSignal].

    JavaScript promises are modelled by their state: [Pending] (not resolved
    yet), [Fulfilled], [Rejected], and [Follows] for a promise that was
    resolved with a thenable and is locked to it.  The [Deferred] objects of
    the decode side live in an explicit heap, the registry [deferred] is a
    plain object that maps property keys to heap locations, so that the
    aliasing between the registry and the hydrated value is kept.  The
    collaborators that are imported by the source but are not part of it
    ([flatten], [unflatten], the marker constants, [JSON.parse], [Number],
    the resolve function of a promise) are fields of the classes below. *)

From stdpp Require Import gmap strings list fin_maps pretty sorting.
From Stdlib Require Import ZArith Ascii.

Open Scope Z_scope.
Set Warnings "-register-all".

(** ** JavaScript string primitives used by the source *)

Module JS.

(** [s.length] *)
Definition length (s : string) : Z := Z.of_nat (String.length s).

(** [s[0]]: the first character as a string, [undefined] on the empty
    string. *)
Definition char0 (s : string) : option string :=
  match s with
  | EmptyString => None
  | String c _ => Some (String c EmptyString)
  end.

(** [s.indexOf(c)] for a one-character needle: [-1] when absent. *)
Fixpoint indexOf_from (c : ascii) (s : string) (i : Z) : Z :=
  match s with
  | EmptyString => -1
  | String d s' => if Ascii.eqb c d then i else indexOf_from c s' (i + 1)
  end.

Definition indexOf (c : ascii) (s : string) : Z := indexOf_from c s 0.

(** Relative index of [String.prototype.slice]: negative counts from the
    end, everything is clamped to [0 .. length]. *)
Definition clamp (len i : Z) : Z :=
  if i <? 0 then Z.max (len + i) 0 else Z.min i len.

(** [s.slice(from, to)] *)
Definition slice (s : string) (from to : Z) : string :=
  let len := length s in
  let a := clamp len from in
  let b := clamp len to in
  String.substring (Z.to_nat a) (Z.to_nat (Z.max (b - a) 0)) s.

(** [s.slice(from)] *)
Definition slice_from (s : string) (from : Z) : string :=
  slice s from (length s).

(** The result of [Number(s)], as far as a registry lookup can tell the
    results apart: not-a-number, an integer, or any other number (a
    fraction or an infinity, kept as its decimal text). *)
Inductive number := NaN | Int (z : Z) | NonInt (repr : string).

(** [!v] for a value that is a string or [undefined]. *)
Definition falsy (v : option string) : bool :=
  match v with
  | None => true
  | Some s => if decide (s = EmptyString) then true else false
  end.

End JS.

(** ** Values, promises and the collaborators of the orchestrators *)

(** What the resolve function of a promise makes of the value it is called
    with: it fulfils the promise with a value that is no thenable, it locks
    the promise to a thenable, and it rejects the promise when the value is
    the promise itself or when reading its [then] throws. *)
Inductive resolving (E : Type) :=
  | Fulfils
  | Adopts
  | Fails (e : E).

Arguments Fulfils {_}.
Arguments Adopts {_}.
Arguments Fails {_} e.

(** What the source imports or inherits from the platform, and does not
    define: the marker constants of [utils.js], [Number], [JSON.parse], the
    tests that the rejection handler of [encode] applies to a reason, and
    the resolve function of the promise of a [Deferred] object, which is
    named by its heap location. *)
Class Host := {
  foreign : Type;                        (* JavaScript values built elsewhere *)
  json : Type;                           (* results of [JSON.parse] *)
  DecodePlugin : Type;
  EncodePlugin : Type;
  TYPE_PROMISE : string;
  TYPE_ERROR : string;
  TYPE_PREVIOUS_RESOLVED : string;
  Number : string -> JS.number;
  JSON_parse : string -> option json;    (* [None]: the parser throws *)
  truthy : foreign -> bool;
  typeof_object : foreign -> bool;
  instanceof_Error : foreign -> bool;
  resolve_kind : nat -> foreign -> resolving foreign;
}.

Section Values.
Context `{Host}.

(** A JavaScript value: [undefined], an error object made by the source
    itself with [new SyntaxError()] or [new Error(message)], or any other
    value. *)
Inductive value :=
  | Undefined
  | SyntaxError
  | Error (message : string)
  | Foreign (v : foreign).

(** [Pending] is a promise whose resolve and reject were not called yet;
    [Follows p] is one that was resolved with the thenable [p]: it is locked
    to [p], settles as [p] does and not before, and ignores later calls of
    its resolve and reject. *)
Inductive promise_state :=
  | Pending
  | Fulfilled (v : value)
  | Rejected (reason : value)
  | Follows (thenable : value).

(** The outcome of a call that may throw. *)
Inductive completion (A : Type) :=
  | Normal (a : A)
  | Throw (reason : value).

Definition settled (p : promise_state) : bool :=
  match p with
  | Fulfilled _ | Rejected _ => true
  | Pending | Follows _ => false
  end.

(** [String(n)]: inside a template literal, and as a property key. *)
Definition number_to_string (n : JS.number) : string :=
  match n with
  | JS.NaN => "NaN"
  | JS.Int z => pretty z
  | JS.NonInt repr => repr
  end.

End Values.

Arguments Normal {_ _} a.
Arguments Throw {_ _} reason.

(** ** The decode side *)

Section DecodeState.
Context `{Host}.

(** [ThisDecode] of [utils.js] as [decode] builds it (lines 28-33).  The
    registry [deferred] is a plain object: it holds, under a property key,
    the location of a [Deferred] object in the heap. *)
Record ThisDecode := {
  values : list json;
  hydrated : gmap nat value;
  deferred : gmap string nat;
  plugins : option (list DecodePlugin);
}.

(** The [Deferred] objects allocated so far, and the decoder that refers to
    them. *)
Record DecodeState := {
  heap : gmap nat promise_state;
  decoder : ThisDecode;
}.

(** [deferred.resolve(v)] and [deferred.reject(v)] on the object at [l]: the
    first call decides, every later call is ignored. *)
Definition settle (p : promise_state) (l : nat) (h : gmap nat promise_state)
  : gmap nat promise_state :=
  match h !! l with
  | Some Pending => <[l := p]> h
  | _ => h
  end.

(** What the first [resolve(v)] makes of the promise at [l].  The errors
    that the source makes itself and [undefined] are no thenables. *)
Definition resolution (l : nat) (v : value) : promise_state :=
  match v with
  | Foreign x =>
      match resolve_kind l x with
      | Fulfils => Fulfilled v
      | Adopts => Follows v
      | Fails e => Rejected (Foreign e)
      end
  | _ => Fulfilled v
  end.

Definition resolve_at (l : nat) (v : value) (st : DecodeState) : DecodeState :=
  {| heap := settle (resolution l v) l (heap st); decoder := decoder st |}.

(** [reject] takes its argument as the reason, whatever it is. *)
Definition reject_at (l : nat) (v : value) (st : DecodeState) : DecodeState :=
  {| heap := settle (Rejected v) l (heap st); decoder := decoder st |}.

(** [this.deferred[deferredId]]: the number is turned into a property key,
    its text, and the registry is read under that key. *)
Definition lookup_deferred (this : ThisDecode) (deferredId : JS.number) : option nat :=
  deferred this !! number_to_string deferredId.

(** The line reader: the lines that [createLineSplittingTransform] will still
    deliver, and how the stream ends after them. *)
Inductive stream_end :=
| Closed
| Errored (reason : value).

Record Reader := {
  lines : list string;
  ending : stream_end;
}.

(** The object that [reader.read()] resolves to. *)
Record ReadResult := {
  done : bool;
  chunk : option string;    (* the field [value] *)
}.

(** [await reader.read()] *)
Definition reader_read (rd : Reader) : completion ReadResult * Reader :=
  match lines rd with
  | l :: ls => (Normal {| done := false; chunk := Some l |},
                {| lines := ls; ending := ending rd |})
  | [] =>
      match ending rd with
      | Closed => (Normal {| done := true; chunk := None |}, rd)
      | Errored e => (Throw e, rd)
      end
  end.

(** [reader.closed]: fulfilled once the stream has closed, which needs every
    queued line to have been read; rejected when the stream errors; pending
    for ever when lines stay unread in front of a close. *)
Definition reader_closed (rd : Reader) : promise_state :=
  match ending rd, lines rd with
  | Errored e, _ => Rejected e
  | Closed, [] => Fulfilled Undefined
  | Closed, _ :: _ => Pending
  end.

End DecodeState.

(** The Unflattener of [unflatten.js]: it hydrates a parsed line, may
    allocate and register [Deferred] objects, and may throw. *)
Class Unflattener `{Host} := {
  unflatten : DecodeState -> json -> completion value * DecodeState;
}.

Section Decode.
Context `{Unflattener}.

(** [decodeInitial] (lines 59-79): the pair is [{done, value}]. *)
Definition decodeInitial (st : DecodeState) (reader : Reader)
  : completion (bool * value) * DecodeState * Reader :=
  match reader_read reader with
  | (Throw e, reader') => (Throw e, st, reader')
  | (Normal read, reader') =>
      if JS.falsy (chunk read) then (Throw SyntaxError, st, reader')
      else
        match JSON_parse (default EmptyString (chunk read)) with
        | None => (Throw SyntaxError, st, reader')
        | Some line =>
            match unflatten st line with
            | (Throw e, st') => (Throw e, st', reader')
            | (Normal v, st') => (Normal (done read, v), st', reader')
            end
        end
  end.

Definition not_found (deferredId : JS.number) : value :=
  Error ("Deferred ID " +:+ number_to_string deferredId +:+ " not found in stream").

(** The [switch (line[0])] of [decodeDeferred] (lines 89-130) on a line that
    is not blank. *)
Definition dispatch (st : DecodeState) (line : string)
  : completion unit * DecodeState :=
  if decide (JS.char0 line = Some TYPE_PROMISE) then
    let colonIndex := JS.indexOf ":"%char line in
    let deferredId := Number (JS.slice line 1 colonIndex) in
    match lookup_deferred (decoder st) deferredId with
    | None => (Throw (not_found deferredId), st)
    | Some l =>
        let lineData := JS.slice_from line (colonIndex + 1) in
        match JSON_parse lineData with
        | None => (Throw SyntaxError, st)
        | Some jsonLine =>
            match unflatten st jsonLine with
            | (Throw e, st') => (Throw e, st')
            | (Normal v, st') => (Normal tt, resolve_at l v st')
            end
        end
    end
  else if decide (JS.char0 line = Some TYPE_ERROR) then
    let colonIndex := JS.indexOf ":"%char line in
    let deferredId := Number (JS.slice line 1 colonIndex) in
    match lookup_deferred (decoder st) deferredId with
    | None => (Throw (not_found deferredId), st)
    | Some l =>
        let lineData := JS.slice_from line (colonIndex + 1) in
        match JSON_parse lineData with
        | None => (Throw SyntaxError, st)
        | Some jsonLine =>
            match unflatten st jsonLine with
            | (Throw e, st') => (Throw e, st')
            | (Normal v, st') => (Normal tt, reject_at l v st')
            end
        end
    end
  else (Throw SyntaxError, st).

(** How a run of [decodeDeferred] ends. *)
Inductive drain :=
| OutOfFuel
| Returns (st : DecodeState) (reader : Reader)
| Throws (reason : value) (st : DecodeState) (reader : Reader).

(** The [while (!read.done)] loop (lines 86-132); one unit of fuel per test
    of the loop condition.  The [continue] of line 87 goes back to the test
    with the same [read]. *)
Fixpoint decodeDeferred_loop (fuel : nat) (st : DecodeState) (reader : Reader)
  (read : ReadResult) : drain :=
  match fuel with
  | O => OutOfFuel
  | S fuel =>
      if done read then Returns st reader
      else if JS.falsy (chunk read) then decodeDeferred_loop fuel st reader read
      else
        match dispatch st (default EmptyString (chunk read)) with
        | (Throw e, st') => Throws e st' reader
        | (Normal _, st') =>
            match reader_read reader with
            | (Throw e, reader') => Throws e st' reader'
            | (Normal read', reader') => decodeDeferred_loop fuel st' reader' read'
            end
        end
  end.

(** [decodeDeferred] (lines 81-133). *)
Definition decodeDeferred (fuel : nat) (st : DecodeState) (reader : Reader) : drain :=
  match reader_read reader with
  | (Throw e, reader') => Throws e st reader'
  | (Normal read, reader') => decodeDeferred_loop fuel st reader' read
  end.

(** The handler of [.catch] (lines 45-47): [reject] on every object of the
    registry. *)
Definition reject_all (reason : value) (st : DecodeState) : DecodeState :=
  {| heap := map_fold (fun _ l h => settle (Rejected reason) l h)
                      (heap st) (deferred (decoder st));
     decoder := decoder st |}.

(** [p.then(f)] for a handler [f] that returns [undefined] and does not
    throw: the handler runs when [p] is fulfilled, a rejection passes
    through. *)
Definition then_handler (p : promise_state) : promise_state :=
  match p with
  | Fulfilled _ => Fulfilled Undefined
  | Rejected r => Rejected r
  | Pending | Follows _ => Pending
  end.

(** [p.catch(f)] for such a handler: the handler runs when [p] is rejected,
    and the new promise is then fulfilled with what it returns. *)
Definition catch_handler (p : promise_state) : promise_state :=
  match p with
  | Rejected _ => Fulfilled Undefined
  | Fulfilled v => Fulfilled v
  | Pending | Follows _ => Pending
  end.

(** [p.then(() => q)]: the new promise follows [q] once [p] is fulfilled. *)
Definition then_promise (p q : promise_state) : promise_state :=
  match p with
  | Pending | Follows _ => Pending
  | Fulfilled _ => q
  | Rejected r => Rejected r
  end.

(** [deferred.resolve()] and [deferred.reject(r)] on the [Deferred] named
    [done]. *)
Definition settle_done (p done_before : promise_state) : promise_state :=
  match done_before with
  | Pending => p
  | other => other
  end.

(** What [decode] hands to its caller, with the promises in the state they
    reach once the drain has ended. *)
Record Decoded := {
  result_value : value;            (* [value] of the returned object *)
  result_done : promise_state;     (* [done] of the returned object *)
  done_deferred : promise_state;   (* the [Deferred] named [done], line 23 *)
  final_state : DecodeState;
  final_reader : Reader;
}.

Inductive decode_outcome :=
| DecodeRejects (reason : value)   (* the promise of [decode] rejects *)
| DecodeHangs (v : value)          (* the drain never ends *)
| DecodeReturns (d : Decoded).

(** The decoder of lines 28-33, with no [Deferred] object allocated yet. *)
Definition initial_state (plugins : option (list DecodePlugin)) : DecodeState :=
  {| heap := ∅;
     decoder := {| values := []; hydrated := ∅; deferred := ∅;
                   plugins := plugins |} |}.

(** [decode] (lines 17-57).  In the branch of line 41 the variable
    [donePromise] is bound anew, to the promise of the chain
    [decodeDeferred(...).then(done.resolve).catch(...)]; line 54 builds the
    [done] of the result from that variable. *)
Definition decode (fuel : nat) (readable : Reader)
  (plugins : option (list DecodePlugin)) : decode_outcome :=
  match decodeInitial (initial_state plugins) readable with
  | (Throw e, _, _) => DecodeRejects e
  | (Normal (decoded_done, decoded_value), st, reader) =>
      let done0 := Pending in                      (* line 23 *)
      if decoded_done then
        let done1 := settle_done (Fulfilled Undefined) done0 in   (* line 39 *)
        let donePromise := done1 in                               (* line 37 *)
        DecodeReturns
          {| result_value := decoded_value;
             result_done := then_promise donePromise (reader_closed reader);
             done_deferred := done1;
             final_state := st;
             final_reader := reader |}
      else
        match decodeDeferred fuel st reader with
        | OutOfFuel => DecodeHangs decoded_value
        | Returns st' reader' =>
            (* the handler of .then runs: done.resolve *)
            let done1 := settle_done (Fulfilled Undefined) done0 in
            let donePromise := catch_handler (then_handler (Fulfilled Undefined)) in
            DecodeReturns
              {| result_value := decoded_value;
                 result_done := then_promise donePromise (reader_closed reader');
                 done_deferred := done1;
                 final_state := st';
                 final_reader := reader' |}
        | Throws reason st' reader' =>
            (* the handler of .catch runs: lines 45-49 *)
            let done1 := settle_done (Rejected reason) done0 in
            let donePromise := catch_handler (then_handler (Rejected reason)) in
            DecodeReturns
              {| result_value := decoded_value;
                 result_done := then_promise donePromise (reader_closed reader');
                 done_deferred := done1;
                 final_state := reject_all reason st';
                 final_reader := reader' |}
        end
  end.

(** The state after the settlement lines [ls], when none of them is blank
    and the switch accepts each of them. *)
Fixpoint drained (st : DecodeState) (ls : list string) : option DecodeState :=
  match ls with
  | [] => Some st
  | l :: ls' =>
      if JS.falsy (Some l) then None
      else
        match dispatch st l with
        | (Normal _, st') => drained st' ls'
        | (Throw _, _) => None
        end
  end.

(** Every placeholder of the registry is settled: nobody who awaits one
    waits for ever. *)
Definition nobody_waits (st : DecodeState) : Prop :=
  forall id l, deferred (decoder st) !! id = Some l ->
    exists p, heap st !! l = Some p /\ settled p = true.

(** Modelled from the spec: the keys of the decode-side registry, which
    [unflatten.js] writes and which is not part of the sources at hand.  The
    registry is a "mapping from a numeric deferred id to a pending future",
    the ids are integers that the encoder assigns, and the Unflattener
    registers a placeholder "under the carried id": every key is the decimal
    text of an integer. *)
Definition integer_ids (this : ThisDecode) : Prop :=
  forall key l, deferred this !! key = Some l -> exists id : Z, key = pretty id.

(** Modelled from the spec: the contract of the Unflattener on the registry,
    "register it under the carried id": a call leaves the registry on
    integer ids. *)
Definition keeps_integer_ids : Prop :=
  forall st parsed,
    integer_ids (decoder st) -> integer_ids (decoder (unflatten st parsed).2).

(** A read that reports the end comes from a stream that has closed with
    nothing left to deliver. *)
Definition end_of_stream (read : ReadResult) (reader : Reader) : Prop :=
  done read = true -> lines reader = [] /\ ending reader = Closed.

End Decode.

(** ** The encode side *)

Section EncodeState.
Context `{Host}.

(** The result of [flatten]: a number (a table index, or an inline sentinel
    when negative) or a one-element array around an index. *)
Inductive refid :=
| RefNumber (id : Z)
| RefArray (id0 : Z).

(** An [AbortSignal]. *)
Record AbortSignal := {
  aborted : bool;
  reason : value;
}.

(** [ThisEncode] of [utils.js] as [encode] builds it (lines 141-148).
    [stringified] is a JavaScript array written by index: [None] is a hole. *)
Record ThisEncode := {
  enc_deferred : gmap Z value;           (* [deferred] *)
  index : Z;
  indices : list (value * Z);
  stringified : list (option string);
  enc_plugins : option (list EncodePlugin);   (* [plugins] *)
  signal : option AbortSignal;
}.

(** What a line carries after its marker and id. *)
Inductive payload :=
| Alias (id0 : Z)                          (* [["R",id0]] *)
| Sentinel (id : Z)                        (* the bare negative number *)
| Fragments (values : list (option string)).   (* [v,v,...] *)

(** One chunk handed to [controller.enqueue]. *)
Inductive frame :=
| Initial (p : payload)
| Settlement (marker : string) (deferredId : Z) (p : payload).

(** [array.join(",")]: a hole joins as the empty string. *)
Fixpoint join (l : list (option string)) : string :=
  match l with
  | [] => EmptyString
  | [x] => default EmptyString x
  | x :: l' => default EmptyString x +:+ "," +:+ join l'
  end.

Definition dquote : string := String (ascii_of_nat 34) EmptyString.
Definition newline : string := String (ascii_of_nat 10) EmptyString.

Definition render_payload (p : payload) : string :=
  match p with
  | Alias id0 =>
      "[[" +:+ dquote +:+ TYPE_PREVIOUS_RESOLVED +:+ dquote +:+ "," +:+ pretty id0 +:+ "]]"
  | Sentinel id => pretty id
  | Fragments values => "[" +:+ join values +:+ "]"
  end.

(** The text of a chunk, as the template literals of the source build it. *)
Definition render (f : frame) : string :=
  match f with
  | Initial p => render_payload p +:+ newline
  | Settlement marker deferredId p =>
      marker +:+ pretty deferredId +:+ ":" +:+ render_payload p +:+ newline
  end.

(** [array.slice(from)] *)
Definition slice_from {A} (l : list A) (from : Z) : list A :=
  drop (Z.to_nat (JS.clamp (Z.of_nat (length l)) from)) l.

(** The state of the stream under construction: the encoder, the variable
    [lastSentIndex], and the chunks enqueued so far. *)
Record EncodeState := {
  encoder : ThisEncode;
  lastSentIndex : Z;
  enqueued : list frame;
}.

End EncodeState.

(** The Flattener of [flatten.js]: it appends to the fragment table,
    registers the promises it meets under [deferred], and returns the
    reference id of its argument.  A Flattener that throws is outside this
    development. *)
Class Flattener `{Host} := {
  flatten : ThisEncode -> value -> refid * ThisEncode;
}.

Section Encode.
Context `{Flattener}.

(** [!!v] *)
Definition to_boolean (v : value) : bool :=
  match v with
  | Undefined => false
  | SyntaxError | Error _ => true
  | Foreign x => truthy x
  end.

(** [signal.reason || new Error("Signal was aborted.")] *)
Definition abort_reason (s : AbortSignal) : value :=
  if to_boolean (reason s) then reason s else Error "Signal was aborted.".

(** [raceSignal] (lines 253-266), on the state of [promise] and of [signal]
    at the time of asking.  While the signal has not fired the race of line
    265 follows [promise]; the listener of line 259 rejects with the same
    expression as line 256, so that asking again after the signal has fired
    gives the state the race then takes. *)
Definition raceSignal (promise : promise_state) (signal : option AbortSignal)
  : promise_state :=
  match signal with
  | None => promise
  | Some s => if aborted s then Rejected (abort_reason s) else promise
  end.

Definition enqueue (f : frame) (enc : ThisEncode) (last : Z) (st : EncodeState)
  : EncodeState :=
  {| encoder := enc; lastSentIndex := last; enqueued := enqueued st ++ [f] |}.

Definition bump_index (enc : ThisEncode) : ThisEncode :=
  {| enc_deferred := enc_deferred enc; index := index enc + 1;
     indices := indices enc; stringified := stringified enc;
     enc_plugins := enc_plugins enc; signal := signal enc |}.

(** The fulfilment handler (lines 176-201). *)
Definition on_resolved (deferredId : Z) (resolved : value) (st : EncodeState)
  : EncodeState :=
  match flatten (encoder st) resolved with
  | (RefArray id0, enc) =>
      enqueue (Settlement TYPE_PROMISE deferredId (Alias id0))
              (bump_index enc) (lastSentIndex st + 1) st
  | (RefNumber id, enc) =>
      if id <? 0 then
        enqueue (Settlement TYPE_PROMISE deferredId (Sentinel id))
                enc (lastSentIndex st) st
      else
        let values := slice_from (stringified enc) (lastSentIndex st + 1) in
        enqueue (Settlement TYPE_PROMISE deferredId (Fragments values))
                enc (Z.of_nat (length (stringified enc)) - 1) st
  end.

(** The test of lines 203-207, negated: the reason is kept as it is. *)
Definition is_error_object (reason : value) : bool :=
  match reason with
  | Undefined => false
  | SyntaxError | Error _ => true
  | Foreign x => truthy x && typeof_object x && instanceof_Error x
  end.

Definition normalize (reason : value) : value :=
  if is_error_object reason then reason else Error "An unknown error occurred".

(** The rejection handler (lines 202-235). *)
Definition on_rejected (deferredId : Z) (reason : value) (st : EncodeState)
  : EncodeState :=
  let reason := normalize reason in
  match flatten (encoder st) reason with
  | (RefArray id0, enc) =>
      enqueue (Settlement TYPE_ERROR deferredId (Alias id0))
              (bump_index enc) (lastSentIndex st + 1) st
  | (RefNumber id, enc) =>
      if id <? 0 then
        enqueue (Settlement TYPE_ERROR deferredId (Sentinel id))
                enc (lastSentIndex st) st
      else
        let values := slice_from (stringified enc) (lastSentIndex st + 1) in
        enqueue (Settlement TYPE_ERROR deferredId (Fragments values))
                enc (Z.of_nat (length (stringified enc)) - 1) st
  end.

(** [delete encoder.deferred[Number(deferredId)]] (line 238). *)
Definition forget (deferredId : Z) (st : EncodeState) : EncodeState :=
  let enc := encoder st in
  {| encoder :=
       {| enc_deferred := delete deferredId (enc_deferred enc);
          index := index enc; indices := indices enc;
          stringified := stringified enc; enc_plugins := enc_plugins enc;
          signal := signal enc |};
     lastSentIndex := lastSentIndex st;
     enqueued := enqueued st |}.

(** The chain of lines 171-239 for one registry entry, once the raced
    promise is in state [raced]. *)
Definition settle_entry (deferredId : Z) (raced : promise_state)
  (st : EncodeState) : EncodeState :=
  match raced with
  | Pending | Follows _ => st
  | Fulfilled v => forget deferredId (on_resolved deferredId v st)
  | Rejected r => forget deferredId (on_rejected deferredId r st)
  end.

(** [Object.entries(encoder.deferred)]: the keys are table indices, which
    come in ascending order. *)
Definition registry_keys (enc : ThisEncode) : list Z :=
  merge_sort Z.le (map fst (map_to_list (enc_deferred enc))).

(** One scan of the registry (lines 168-241) when no entry has settled by
    itself: each entry is raced against the signal as it is now. *)
Definition scan (st : EncodeState) : EncodeState :=
  let sig := signal (encoder st) in
  foldl (fun st d => settle_entry d (raceSignal Pending sig) st)
        st (registry_keys (encoder st)).

(** What the outside world does to a running [encode]: a registered promise
    settles, or the signal is fired with a reason. *)
Inductive event :=
| Settles (deferredId : Z) (outcome : promise_state)
| Aborts (why : value).

Definition fire (why : value) (st : EncodeState) : EncodeState :=
  let enc := encoder st in
  {| encoder :=
       {| enc_deferred := enc_deferred enc; index := index enc;
          indices := indices enc; stringified := stringified enc;
          enc_plugins := enc_plugins enc;
          signal := match signal enc with
                    | Some _ => Some {| aborted := true; reason := why |}
                    | None => None
                    end |};
     lastSentIndex := lastSentIndex st;
     enqueued := enqueued st |}.

Definition is_aborted (st : EncodeState) : bool :=
  match signal (encoder st) with
  | Some s => aborted s
  | None => false
  end.

Inductive stream_status :=
| NoFuel
| StillOpen                       (* waiting on promises that never settle *)
| StreamClosed
| StreamErrored (reason : value).

(** The settlement loop (lines 167-246) against a schedule of events.  The
    test of line 167 is the test for an empty registry; the scan of lines
    168-241 puts every entry in a race, which an aborted signal decides at
    once; the [await] of line 242 waits for the next event.  A handler runs
    to completion before the next event is looked at, and the loop has
    scanned the registry again by then, so that every entry is in its race
    when an event arrives.  With an empty registry line 244 has nothing to
    wait for and line 246 closes the stream. *)
Fixpoint settlement_loop (fuel : nat) (st : EncodeState) (schedule : list event)
  : stream_status * EncodeState :=
  match fuel with
  | O => (NoFuel, st)
  | S fuel =>
      if decide (enc_deferred (encoder st) = ∅) then (StreamClosed, st)
      else if is_aborted st then settlement_loop fuel (scan st) schedule
      else
        match schedule with
        | [] => (StillOpen, st)
        | Settles d outcome :: schedule' =>
            match enc_deferred (encoder st) !! d with
            | Some _ =>
                settlement_loop fuel
                  (settle_entry d (raceSignal outcome (signal (encoder st))) st)
                  schedule'
            | None => settlement_loop fuel st schedule'
            end
        | Aborts why :: schedule' => settlement_loop fuel (fire why st) schedule'
        end
  end.

(** The first step of [start] (lines 153-164). *)
Definition start_initial (input : value) (st : EncodeState) : completion EncodeState :=
  match flatten (encoder st) input with
  | (RefArray _, _) => Throw (Error "This should never happen")
  | (RefNumber id, enc) =>
      if id <? 0 then
        Normal (enqueue (Initial (Sentinel id)) enc (lastSentIndex st) st)
      else
        Normal (enqueue (Initial (Fragments (stringified enc))) enc
                        (Z.of_nat (length (stringified enc)) - 1) st)
  end.

(** The encoder of lines 141-148 and [lastSentIndex] of line 150, before
    anything is enqueued. *)
Definition initial_encoder (plugins : option (list EncodePlugin))
  (signal : option AbortSignal) : ThisEncode :=
  {| enc_deferred := ∅; index := 0; indices := []; stringified := [];
     enc_plugins := plugins; signal := signal |}.

Definition initial_stream (plugins : option (list EncodePlugin))
  (signal : option AbortSignal) : EncodeState :=
  {| encoder := initial_encoder plugins signal; lastSentIndex := 0;
     enqueued := [] |}.

(** [encode] (lines 135-251). *)
Definition encode (fuel : nat) (input : value)
  (plugins : option (list EncodePlugin)) (signal : option AbortSignal)
  (schedule : list event) : stream_status * EncodeState :=
  let st := initial_stream plugins signal in
  match start_initial input st with
  | Throw e => (StreamErrored e, st)
  | Normal st' => settlement_loop fuel st' schedule
  end.

(** *** What the frames carry *)

(** The payload rule shared by the settlement handlers: the alias of an
    index, a bare sentinel, or the fragments after the high-water mark. *)
Definition payload_of (id : refid) (enc : ThisEncode) (last : Z) : payload :=
  match id with
  | RefArray id0 => Alias id0
  | RefNumber n =>
      if n <? 0 then Sentinel n
      else Fragments (slice_from (stringified enc) (last + 1))
  end.

(** The fragment-table entries that a frame carries. *)
Definition carried (f : frame) : list (option string) :=
  match f with
  | Initial (Fragments values) | Settlement _ _ (Fragments values) => values
  | _ => []
  end.

Definition transmitted (fs : list frame) : list (option string) :=
  concat (carried <$> fs).

Definition is_alias (f : frame) : bool :=
  match f with
  | Settlement _ _ (Alias _) => true
  | _ => false
  end.

(** The number of alias frames among [fs]. *)
Fixpoint aliases (fs : list frame) : nat :=
  match fs with
  | [] => 0
  | f :: fs' => ((if is_alias f then 1 else 0) + aliases fs')%nat
  end.

(** The entries of the table that hold a fragment, in index order. *)
Definition written (table : list (option string)) : list string :=
  omap id table.

(** [f] is the frame that the rejection handler enqueues for the id [d] and
    the reason [r], at some state of the stream: a frame with the error
    marker for [d]. *)
Definition is_rejection_for (r : value) (d : Z) (f : frame) : Prop :=
  (exists p, f = Settlement TYPE_ERROR d p) /\
  (exists st, enqueued (on_rejected d r st) = enqueued st ++ [f]).

(** The bookkeeping invariant of the stream: the table does not reach beyond
    the cursor, the high-water mark is the slot before the cursor, the
    frames enqueued so far carry the written entries of the table, each once
    and in index order, and the cursor counts those entries and one slot for
    each alias frame. *)
Record in_step (st : EncodeState) : Prop := {
  table_below_cursor : Z.of_nat (length (stringified (encoder st))) <= index (encoder st);
  mark_before_cursor : lastSentIndex st + 1 = index (encoder st);
  all_sent : transmitted (enqueued st) = Some <$> written (stringified (encoder st));
  cursor_counts :
    index (encoder st)
    = Z.of_nat (length (written (stringified (encoder st))))
      + Z.of_nat (aliases (enqueued st));
}.

(** Flattening [v] registers no promise and leaves the signal alone. *)
Definition registers_nothing (v : value) : Prop :=
  forall enc,
    enc_deferred (flatten enc v).2 = enc_deferred enc /\
    signal (flatten enc v).2 = signal enc.

(** [f] is the frame for the settlement [ev]: the id of the event, with the
    resolution marker for a fulfilment and the error marker for a
    rejection. *)
Definition answers (ev : event) (f : frame) : Prop :=
  match ev with
  | Settles d (Fulfilled _) => exists p, f = Settlement TYPE_PROMISE d p
  | Settles d (Rejected _) => exists p, f = Settlement TYPE_ERROR d p
  | _ => False
  end.

(** The event is a settlement whose value registers no promise when it is
    flattened. *)
Definition quiet (ev : event) : Prop :=
  match ev with
  | Settles _ (Fulfilled v) => registers_nothing v
  | Settles _ (Rejected r) => registers_nothing (normalize r)
  | _ => False
  end.

(** The ids that the events of a schedule name. *)
Definition settled_ids (schedule : list event) : list Z :=
  omap (fun ev => match ev with Settles d _ => Some d | Aborts _ => None end)
       schedule.

(** From [st] to [st'] the table, the cursor and the high-water mark have
    only moved forward: the table of [st] is the front of the table of
    [st']. *)
Definition grows (st st' : EncodeState) : Prop :=
  stringified (encoder st) `prefix_of` stringified (encoder st') /\
  index (encoder st) <= index (encoder st') /\
  lastSentIndex st <= lastSentIndex st'.

(** The shape of a whole stream: nothing, or one initial chunk followed by
    settlement chunks only. *)
Definition is_settlement (f : frame) : bool :=
  match f with
  | Settlement _ _ _ => true
  | Initial _ => false
  end.

Definition well_framed (fs : list frame) : Prop :=
  match fs with
  | [] => True
  | f :: fs' => is_settlement f = false /\ Forall (fun g => is_settlement g = true) fs'
  end.

(** Modelled from the spec: the contract of the Flattener, whose source
    [flatten.js] is not part of the sources at hand.  The fragment table is
    append-only and written at the cursor [index]: a call that returns an
    alias or an inline sentinel leaves the encoder as it is; a call that
    returns a table index writes its new fragments at the positions from
    [index] on and moves [index] behind them. *)
Definition flatten_contract : Prop :=
  forall enc v,
    Z.of_nat (length (stringified enc)) <= index enc ->
    match flatten enc v with
    | (RefArray _, enc') => enc' = enc
    | (RefNumber n, enc') =>
        if n <? 0 then enc' = enc
        else exists news : list string,
            stringified enc'
            = stringified enc
              ++ replicate (Z.to_nat (index enc) - length (stringified enc)) None
              ++ (Some <$> news)
            /\ index enc' = index enc + Z.of_nat (length news)
    end.

End Encode.

(** ** A concrete wire format

    An instance of the collaborators, small enough to run the orchestrators
    on explicit lines: fragments are integers, strings, errors and promise
    markers, in the notation of the reference protocol ([P] resolution, [E]
    rejection, [R] alias). *)

Module Sample.

Inductive atom :=
| Num (z : Z)
| Str (s : string)
| PromiseObj (p : nat)         (* a promise, by identity: on the decode side the
                                  promise of the [Deferred] object at [p] *)
| ErrorObj (message : string). (* an instance of [Error] made by the caller *)

Inductive sjson :=
| JNum (z : Z)
| JStr (s : string)
| JArr (items : list sjson).

Definition is_digit (c : ascii) : bool :=
  let n := nat_of_ascii c in (48 <=? n)%nat && (n <=? 57)%nat.

Definition digit_value (c : ascii) : Z := Z.of_nat (nat_of_ascii c) - 48.

(** The longest run of decimal digits in front of [cs], if there is one. *)
Fixpoint digits (cs : list ascii) (seen : option Z) : option Z * list ascii :=
  match cs with
  | c :: cs' =>
      if is_digit c
      then digits cs' (Some (10 * default 0 seen + digit_value c))
      else (seen, cs)
  | [] => (seen, cs)
  end.

(** The characters up to the next double quote; there are no escapes. *)
Fixpoint until_quote (cs : list ascii) (seen : string) : option (string * list ascii) :=
  match cs with
  | [] => None
  | c :: cs' =>
      if Ascii.eqb c (ascii_of_nat 34) then Some (seen, cs')
      else until_quote cs' (seen +:+ String c EmptyString)
  end.

Fixpoint parse_value (fuel : nat) (cs : list ascii) {struct fuel}
  : option (sjson * list ascii) :=
  match fuel with
  | O => None
  | S fuel =>
      match cs with
      | [] => None
      | c :: r =>
          if Ascii.eqb c "["%char then
            match r with
            | c2 :: r2 =>
                if Ascii.eqb c2 "]"%char then Some (JArr [], r2)
                else parse_items fuel r []
            | [] => None
            end
          else if Ascii.eqb c (ascii_of_nat 34) then
            match until_quote r EmptyString with
            | Some (s, r') => Some (JStr s, r')
            | None => None
            end
          else if Ascii.eqb c "-"%char then
            match digits r None with
            | (Some n, r') => Some (JNum (- n), r')
            | (None, _) => None
            end
          else
            match digits cs None with
            | (Some n, r') => Some (JNum n, r')
            | (None, _) => None
            end
      end
  end
with parse_items (fuel : nat) (cs : list ascii) (seen : list sjson) {struct fuel}
  : option (sjson * list ascii) :=
  match fuel with
  | O => None
  | S fuel =>
      match parse_value fuel cs with
      | Some (v, c :: r) =>
          if Ascii.eqb c ","%char then parse_items fuel r (seen ++ [v])
          else if Ascii.eqb c "]"%char then Some (JArr (seen ++ [v]), r)
          else None
      | _ => None
      end
  end.

(** [JSON.parse] on integers, escape-free strings and arrays of them. *)
Definition parse_json (s : string) : option sjson :=
  let cs := String.list_ascii_of_string s in
  match parse_value (2 * length cs + 2) cs with
  | Some (v, []) => Some v
  | _ => None
  end.

(** [Number] on the empty string and on decimal integers; every other
    string of the examples is not a number. *)
Definition parse_number (s : string) : JS.number :=
  match String.list_ascii_of_string s with
  | [] => JS.Int 0
  | c :: r =>
      if Ascii.eqb c "-"%char then
        match digits r None with
        | (Some n, []) => JS.Int (- n)
        | _ => JS.NaN
        end
      else
        match digits (c :: r) None with
        | (Some n, []) => JS.Int n
        | _ => JS.NaN
        end
  end.

Definition host : Host :=
  {| foreign := atom;
     json := sjson;
     DecodePlugin := Empty_set;
     EncodePlugin := Empty_set;
     TYPE_PROMISE := "P";
     TYPE_ERROR := "E";
     TYPE_PREVIOUS_RESOLVED := "R";
     Number := parse_number;
     JSON_parse := parse_json;
     truthy := fun a => match a with
                        | Num z => negb (z =? 0)
                        | Str s => if decide (s = EmptyString) then false else true
                        | _ => true
                        end;
     typeof_object := fun a => match a with
                               | PromiseObj _ | ErrorObj _ => true
                               | _ => false
                               end;
     instanceof_Error := fun a => match a with ErrorObj _ => true | _ => false end;
     resolve_kind := fun l a =>
       match a with
       | PromiseObj p =>
           if decide (p = l) then Fails (ErrorObj "Chaining cycle detected for promise")
           else Adopts
       | _ => Fulfils
       end |}.

#[local] Existing Instance host.

#[global] Instance atom_eq_dec : EqDecision atom.
Proof. solve_decision. Defined.

#[global] Instance sample_value_eq_dec : EqDecision (@value host).
Proof. solve_decision. Defined.

(** [hydrated[i] = v] *)
Definition memoize (i : nat) (v : value) (st : DecodeState) : DecodeState :=
  let this := decoder st in
  {| heap := heap st;
     decoder := {| values := values this;
                   hydrated := <[i := v]> (hydrated this);
                   deferred := deferred this;
                   plugins := plugins this |} |}.

(** [new Deferred()] stored under [deferred[id]]. *)
Definition register (id : Z) (st : DecodeState) : nat * DecodeState :=
  let this := decoder st in
  let l := size (heap st) in
  (l, {| heap := <[l := Pending]> (heap st);
         decoder := {| values := values this;
                       hydrated := hydrated this;
                       deferred := <[pretty id := l]> (deferred this);
                       plugins := plugins this |} |}).

Definition hydrate (st : DecodeState) (i : nat) : completion value * DecodeState :=
  match values (decoder st) !! i with
  | Some (JNum z) => (Normal (Foreign (Num z)), memoize i (Foreign (Num z)) st)
  | Some (JStr s) => (Normal (Foreign (Str s)), memoize i (Foreign (Str s)) st)
  | Some (JArr [JStr tag; JNum id]) =>
      if decide (tag = "P") then
        let '(l, st') := register id st in
        (Normal (Foreign (PromiseObj l)), memoize i (Foreign (PromiseObj l)) st')
      else (Throw SyntaxError, st)
  | Some (JArr [JStr tag; JStr message]) =>
      if decide (tag = "E") then
        (Normal (Foreign (ErrorObj message)), memoize i (Foreign (ErrorObj message)) st)
      else (Throw SyntaxError, st)
  | _ => (Throw SyntaxError, st)
  end.

Definition push (items : list sjson) (st : DecodeState) : DecodeState :=
  let this := decoder st in
  {| heap := heap st;
     decoder := {| values := values this ++ items;
                   hydrated := hydrated this;
                   deferred := deferred this;
                   plugins := plugins this |} |}.

(** Modelled from the spec: the Unflattener, whose source [unflatten.js] is
    not part of the sources at hand.  A bare negative number is an inline
    sentinel; a sequence of fragments is appended to the table and its first
    fragment is hydrated; a promise marker [["P",id]] constructs a placeholder
    and registers it under the carried id. *)
Definition sample_unflatten (st : DecodeState) (parsed : sjson)
  : completion value * DecodeState :=
  match parsed with
  | JNum z => if z <? 0 then (Normal Undefined, st) else (Throw SyntaxError, st)
  | JStr _ => (Throw SyntaxError, st)
  | JArr items => hydrate (push items st) (length (values (decoder st)))
  end.

Definition unflattener : Unflattener := {| unflatten := sample_unflatten |}.

(** [array[i] = s] on an array with holes. *)
Definition write_at (i : Z) (s : string) (l : list (option string))
  : list (option string) :=
  if i <? Z.of_nat (length l) then <[Z.to_nat i := Some s]> l
  else l ++ replicate (Z.to_nat i - length l) None ++ [Some s].

Definition quoted (s : string) : string := dquote +:+ s +:+ dquote.

Definition fragment_text (v : value) (i : Z) : string :=
  match v with
  | Undefined => EmptyString
  | SyntaxError => "[" +:+ quoted "E" +:+ "," +:+ quoted "SyntaxError" +:+ "]"
  | Error m | Foreign (ErrorObj m) => "[" +:+ quoted "E" +:+ "," +:+ quoted m +:+ "]"
  | Foreign (Num z) => pretty z
  | Foreign (Str s) => quoted s
  | Foreign (PromiseObj _) => "[" +:+ quoted "P" +:+ "," +:+ pretty i +:+ "]"
  end.

Definition is_promise (v : value) : bool :=
  match v with Foreign (PromiseObj _) => true | _ => false end.

Fixpoint lookup_index (v : value) (seen : list (value * Z)) : option Z :=
  match seen with
  | [] => None
  | (w, i) :: seen' => if decide (v = w) then Some i else lookup_index v seen'
  end.

(** Modelled from the spec: the Flattener, whose source [flatten.js] is not
    part of the sources at hand.  A value met before yields the alias of its
    index; [undefined] yields the inline sentinel [-1]; any other value takes
    the next table index, and a promise is registered under that index. *)
Definition sample_flatten (enc : ThisEncode) (v : value) : refid * ThisEncode :=
  match lookup_index v (indices enc) with
  | Some i => (RefArray i, enc)
  | None =>
      match v with
      | Undefined => (RefNumber (-1), enc)
      | _ =>
          let i := index enc in
          (RefNumber i,
           {| enc_deferred := if is_promise v then <[i := v]> (enc_deferred enc)
                              else enc_deferred enc;
              index := i + 1;
              indices := (v, i) :: indices enc;
              stringified := write_at i (fragment_text v i) (stringified enc);
              enc_plugins := enc_plugins enc;
              signal := signal enc |})
      end
  end.

Definition flattener : Flattener := {| flatten := sample_flatten |}.

(** *** Streams and states of the examples *)

(** The first line of a stream whose value is one promise, with id [0]. *)
Definition promise_line : string := "[[" +:+ quoted "P" +:+ ",0]]".

Definition closing (ls : list string) : Reader :=
  {| lines := ls; ending := Closed |}.

(** A resolution line for id [0] whose payload is a promise marker: the
    placeholder adopts the promise that hydration makes. *)
Definition adopting_line : string := "P0:[[" +:+ quoted "P" +:+ ",7]]".

(** The decoder after [promise_line]: one pending placeholder under id [0]. *)
Definition registered : DecodeState :=
  {| heap := {[ 0%nat := Pending ]};
     decoder := {| values := [JArr [JStr "P"; JNum 0]];
                   hydrated := {[ 0%nat := Foreign (PromiseObj 0) ]};
                   deferred := {[ "0" := 0%nat ]};
                   plugins := None |} |}.

(** The decoder after the further line [P0:[1]]. *)
Definition resolved_once : DecodeState :=
  {| heap := {[ 0%nat := Fulfilled (Foreign (Num 1)) ]};
     decoder := {| values := [JArr [JStr "P"; JNum 0]; JNum 1];
                   hydrated := <[ 1%nat := Foreign (Num 1) ]>
                                 {[ 0%nat := Foreign (PromiseObj 0) ]};
                   deferred := {[ "0" := 0%nat ]};
                   plugins := None |} |}.

(** The decoder after the further line [P0:[2]]. *)
Definition resolved_twice : DecodeState :=
  {| heap := {[ 0%nat := Fulfilled (Foreign (Num 1)) ]};
     decoder := {| values := [JArr [JStr "P"; JNum 0]; JNum 1; JNum 2];
                   hydrated := <[ 2%nat := Foreign (Num 2) ]>
                                 (<[ 1%nat := Foreign (Num 1) ]>
                                    {[ 0%nat := Foreign (PromiseObj 0) ]});
                   deferred := {[ "0" := 0%nat ]};
                   plugins := None |} |}.

(** A signal that has not fired, and the stream of [encode] on one promise
    right after its first frame. *)
Definition live_signal : AbortSignal := {| aborted := false; reason := Undefined |}.

Definition one_outstanding : EncodeState :=
  {| encoder := {| enc_deferred := {[ 0 := Foreign (PromiseObj 0) ]};
                   index := 1;
                   indices := [(Foreign (PromiseObj 0), 0)];
                   stringified := [Some ("[" +:+ quoted "P" +:+ ",0]")];
                   enc_plugins := None;
                   signal := Some live_signal |};
     lastSentIndex := 0;
     enqueued := [Initial (Fragments [Some ("[" +:+ quoted "P" +:+ ",0]")])] |}.

(** A stream with two promises outstanding, under the ids [0] and [1], and
    no signal. *)
Definition two_outstanding : EncodeState :=
  {| encoder := {| enc_deferred := <[ 1 := Foreign (PromiseObj 1) ]>
                                     {[ 0 := Foreign (PromiseObj 0) ]};
                   index := 2;
                   indices := [(Foreign (PromiseObj 1), 1); (Foreign (PromiseObj 0), 0)];
                   stringified := [Some ("[" +:+ quoted "P" +:+ ",0]");
                                   Some ("[" +:+ quoted "P" +:+ ",1]")];
                   enc_plugins := None;
                   signal := None |};
     lastSentIndex := 1;
     enqueued := [Initial (Fragments [Some ("[" +:+ quoted "P" +:+ ",0]");
                                      Some ("[" +:+ quoted "P" +:+ ",1]")])] |}.

End Sample.

(** * Decimal text

    The text of an integer, as [encode] writes an id and as a number is
    turned into a property key, is made of digits and the minus sign. *)

Section DecimalText.

Lemma indexOf_from_absent c (s : string) : forall i j,
  0 <= i -> JS.indexOf_from c s i = -1 -> JS.indexOf_from c s j = -1.
Proof.
  induction s as [|a s IH]; intros i j Hi; simpl; [auto|].
  destruct (Ascii.eqb c a); [lia|].
  apply IH. lia.
Qed.

Lemma absent_cons (c a : ascii) (s : string) :
  a <> c -> JS.indexOf c s = -1 -> JS.indexOf c (String a s) = -1.
Proof.
  intros Ha Hs. unfold JS.indexOf in *. cbn [JS.indexOf_from].
  destruct (Ascii.eqb_spec c a) as [Heq|_]; [congruence|].
  apply (indexOf_from_absent _ _ 0 (0 + 1)); [lia|exact Hs].
Qed.

Lemma pretty_N_go_lacks (c : ascii) (x : N) :
  (forall d, pretty_N_char d <> c) ->
  forall s, JS.indexOf c s = -1 -> JS.indexOf c (pretty_N_go x s) = -1.
Proof.
  intros Hc. induction (N.lt_wf_0 x) as [x _ IH]; intros s Hs.
  destruct (decide (x = 0)%N) as [->|Hx].
  - rewrite pretty_N_go_0. exact Hs.
  - rewrite pretty_N_go_step by lia. apply IH.
    + apply N.div_lt; lia.
    + apply absent_cons; [apply Hc|exact Hs].
Qed.

(** A character that is neither a digit nor the minus sign is not in the
    decimal text of an integer. *)
Lemma pretty_Z_lacks (c : ascii) (z : Z) :
  (forall d, pretty_N_char d <> c) -> "-"%char <> c ->
  JS.indexOf c (pretty z) = -1.
Proof.
  intros Hc Hm.
  assert (HN : forall n : N, JS.indexOf c (pretty n) = -1).
  { intros n. unfold pretty, pretty_N. destruct (decide (n = 0)%N).
    - apply absent_cons; [exact (Hc 0%N)|reflexivity].
    - apply pretty_N_go_lacks; [exact Hc|reflexivity]. }
  destruct z as [|p|p].
  - apply absent_cons; [exact (Hc 0%N)|reflexivity].
  - apply (HN (Npos p)).
  - change (pretty (Z.neg p)) with ("-" +:+ pretty (Npos p)).
    apply absent_cons; [exact Hm|apply (HN (Npos p))].
Qed.

Lemma pretty_Z_no_colon (z : Z) : JS.indexOf ":"%char (pretty z) = -1.
Proof.
  apply pretty_Z_lacks; [|discriminate].
  intros d. unfold pretty_N_char. repeat case_match; discriminate.
Qed.

(** The property key [NaN] is the decimal text of no integer. *)
Lemma pretty_Z_not_NaN (z : Z) : pretty z <> "NaN".
Proof.
  intros Heq.
  assert (Hn : JS.indexOf "N"%char (pretty z) = -1).
  { apply pretty_Z_lacks; [|discriminate].
    intros d. unfold pretty_N_char. repeat case_match; discriminate. }
  rewrite Heq in Hn. discriminate Hn.
Qed.

End DecimalText.

(** * Properties of the decode side *)

Section DecodeFacts.
Context `{Unflattener}.

Implicit Types (st : DecodeState) (reader : Reader) (read : ReadResult).

Lemma reader_read_end reader read reader' :
  reader_read reader = (Normal read, reader') -> end_of_stream read reader'.
Proof.
  unfold reader_read, end_of_stream.
  destruct (lines reader) as [|l ls] eqn:Hl.
  - destruct (ending reader) eqn:He; intros [= <- <-]; auto.
  - intros [= <- <-]; simpl; discriminate.
Qed.

Lemma reader_read_ending reader c reader' :
  reader_read reader = (c, reader') -> ending reader' = ending reader.
Proof.
  unfold reader_read.
  destruct (lines reader); [destruct (ending reader) eqn:He|]; intros [= <- <-]; simpl; auto.
Qed.

Lemma loop_returns_closed fuel : forall st reader read st' reader',
  end_of_stream read reader ->
  decodeDeferred_loop fuel st reader read = Returns st' reader' ->
  lines reader' = [] /\ ending reader' = Closed.
Proof.
  induction fuel as [|fuel IH]; intros st reader read st' reader' Hend; simpl; [discriminate|].
  destruct (done read) eqn:Hd.
  - intros [= <- <-]. apply Hend, Hd.
  - destruct (JS.falsy (chunk read)).
    + apply IH, Hend.
    + destruct (dispatch st _) as [[[]|e] st1]; [|discriminate].
      destruct (reader_read reader) as [[read1|e] reader1] eqn:Hr; [|discriminate].
      apply IH. eapply reader_read_end, Hr.
Qed.

Lemma decodeDeferred_returns_closed fuel st reader st' reader' :
  decodeDeferred fuel st reader = Returns st' reader' ->
  lines reader' = [] /\ ending reader' = Closed.
Proof.
  unfold decodeDeferred.
  destruct (reader_read reader) as [[read1|e] reader1] eqn:Hr; [|discriminate].
  apply loop_returns_closed. eapply reader_read_end, Hr.
Qed.

Lemma loop_ending fuel : forall st reader read,
  match decodeDeferred_loop fuel st reader read with
  | OutOfFuel => True
  | Returns _ reader' | Throws _ _ reader' => ending reader' = ending reader
  end.
Proof.
  induction fuel as [|fuel IH]; intros st reader read; simpl; [exact I|].
  destruct (done read); [reflexivity|].
  destruct (JS.falsy (chunk read)); [apply IH|].
  destruct (dispatch st _) as [[[]|e] st1]; [|reflexivity].
  destruct (reader_read reader) as [[read1|e] reader1] eqn:Hr.
  - specialize (IH st1 reader1 read1).
    destruct (decodeDeferred_loop fuel st1 reader1 read1); auto;
      rewrite IH; eapply reader_read_ending, Hr.
  - eapply reader_read_ending, Hr.
Qed.

Lemma decodeDeferred_ending fuel st reader :
  match decodeDeferred fuel st reader with
  | OutOfFuel => True
  | Returns _ reader' | Throws _ _ reader' => ending reader' = ending reader
  end.
Proof.
  unfold decodeDeferred.
  destruct (reader_read reader) as [[read1|e] reader1] eqn:Hr.
  - pose proof (loop_ending fuel st reader1 read1) as Hl.
    destruct (decodeDeferred_loop fuel st reader1 read1); auto;
      rewrite Hl; eapply reader_read_ending, Hr.
  - eapply reader_read_ending, Hr.
Qed.

Lemma decodeInitial_ending st reader c st' reader' :
  decodeInitial st reader = (c, st', reader') -> ending reader' = ending reader.
Proof.
  unfold decodeInitial.
  destruct (reader_read reader) as [[read1|e] reader1] eqn:Hr.
  - apply reader_read_ending in Hr.
    destruct (JS.falsy _); [intros [= <- <- <-]; exact Hr|].
    destruct (JSON_parse _); [|intros [= <- <- <-]; exact Hr].
    destruct (unflatten _ _) as [[v|e] st1]; intros [= <- <- <-]; exact Hr.
  - apply reader_read_ending in Hr. intros [= <- <- <-]; exact Hr.
Qed.

(** The loop never leaves a blank line: line 87 repeats the test of line 86
    on the same read. *)
Lemma loop_blank_line fuel : forall st reader,
  decodeDeferred_loop fuel st reader {| done := false; chunk := Some EmptyString |}
  = OutOfFuel.
Proof.
  induction fuel as [|fuel IH]; intros st reader; simpl; [reflexivity|apply IH].
Qed.


Lemma loop_terminates fuel : forall st reader read,
  Forall (fun l => l <> EmptyString) (lines reader) ->
  (done read = false -> JS.falsy (chunk read) = false) ->
  (length (lines reader) + 2 <= fuel)%nat ->
  decodeDeferred_loop fuel st reader read <> OutOfFuel.
Proof.
  induction fuel as [|fuel IH]; intros st reader read Hall Hread Hfuel; [lia|].
  simpl. destruct (done read) eqn:Hd; [discriminate|].
  rewrite (Hread eq_refl).
  destruct (dispatch st _) as [[[]|e] st1]; [|discriminate].
  unfold reader_read.
  destruct (lines reader) as [|l ls] eqn:Hl.
  - destruct (ending reader); [|discriminate].
    destruct fuel; [simpl in Hfuel; lia|]. simpl. discriminate.
  - apply IH; simpl.
    + rewrite Forall_cons in Hall. apply Hall.
    + intros _. rewrite Forall_cons in Hall. destruct Hall as [Hne _].
      unfold JS.falsy. destruct (decide (l = EmptyString)); congruence.
    + simpl in Hfuel. lia.
Qed.

(** Without blank lines the loop ends: the stream's length bounds the number
    of tests of its condition. *)
Lemma decodeDeferred_terminates st reader :
  Forall (fun l => l <> EmptyString) (lines reader) ->
  decodeDeferred (S (length (lines reader))) st reader <> OutOfFuel.
Proof.
  intros Hall. unfold decodeDeferred, reader_read.
  destruct (lines reader) as [|l ls] eqn:Hl.
  - destruct (ending reader); simpl; discriminate.
  - rewrite Forall_cons in Hall. destruct Hall as [Hne Hall].
    apply loop_terminates; simpl.
    + exact Hall.
    + intros _. unfold JS.falsy. destruct (decide (l = EmptyString)); congruence.
    + lia.
Qed.

Lemma settle_settled p l (h : gmap nat promise_state) q :
  h !! l = Some q -> settled q = true -> settle p l h = h.
Proof. unfold settle. intros -> Hq. destruct q; [discriminate|reflexivity..]. Qed.

Lemma settle_lookup p l (h : gmap nat promise_state) k :
  settle p l h !! k =
    if decide (l = k) then
      match h !! k with Some Pending => Some p | o => o end
    else h !! k.
Proof.
  unfold settle. destruct (decide (l = k)) as [->|Hne].
  - destruct (h !! k) as [[]|] eqn:Hk; rewrite ?lookup_insert_eq, ?Hk; reflexivity.
  - destruct (h !! l) as [[]|]; rewrite ?lookup_insert_ne by done; reflexivity.
Qed.

(** The handler of [.catch]: every pending object of the registry is
    rejected with the reason, nothing else changes. *)
Lemma reject_all_spec reason st :
  let h' := heap (reject_all reason st) in
  (forall id l, deferred (decoder st) !! id = Some l ->
                heap st !! l = Some Pending -> h' !! l = Some (Rejected reason)) /\
  (forall l, heap st !! l <> Some Pending -> h' !! l = heap st !! l) /\
  (forall l, (forall id, deferred (decoder st) !! id <> Some l) ->
             h' !! l = heap st !! l) /\
  (forall l, heap st !! l = Some Pending ->
             h' !! l = Some Pending \/ h' !! l = Some (Rejected reason)).
Proof.
  unfold reject_all; simpl.
  apply (map_fold_weak_ind
    (fun (h' : gmap nat promise_state) (m : gmap string nat) =>
       (forall id l, m !! id = Some l ->
                     heap st !! l = Some Pending -> h' !! l = Some (Rejected reason)) /\
       (forall l, heap st !! l <> Some Pending -> h' !! l = heap st !! l) /\
       (forall l, (forall id, m !! id <> Some l) -> h' !! l = heap st !! l) /\
       (forall l, heap st !! l = Some Pending ->
                  h' !! l = Some Pending \/ h' !! l = Some (Rejected reason)))).
  - split; [|split; [|split]]; auto. intros id l. rewrite lookup_empty. discriminate.
  - intros i x m r Hi (IH1 & IH2 & IH3 & IH4).
    split; [|split; [|split]].
    + intros id l Hid Hp. rewrite settle_lookup.
      destruct (decide (x = l)) as [->|Hne].
      * destruct (IH4 l Hp) as [-> | ->]; reflexivity.
      * apply (IH1 id); [|exact Hp].
        rewrite lookup_insert in Hid. destruct (decide (i = id)); [congruence|exact Hid].
    + intros l Hl. rewrite settle_lookup. destruct (decide (x = l)) as [->|Hne].
      * rewrite (IH2 l Hl). destruct (heap st !! l) as [[]|]; congruence.
      * apply IH2, Hl.
    + intros l Hl. rewrite settle_lookup. destruct (decide (x = l)) as [->|Hne].
      * exfalso. apply (Hl i). apply lookup_insert_eq.
      * apply IH3. intros id Hid. apply (Hl id).
        rewrite lookup_insert. destruct (decide (i = id)); [congruence|exact Hid].
    + intros l Hl. rewrite settle_lookup. destruct (decide (x = l)) as [->|Hne].
      * destruct (IH4 l Hl) as [-> | ->]; auto.
      * apply IH4, Hl.
Qed.

Lemma char0_not_blank line c : JS.char0 line = Some c -> JS.falsy (Some line) = false.
Proof.
  destruct line; [discriminate|]. intros _. unfold JS.falsy.
  destruct (decide _); [discriminate|reflexivity].
Qed.

Lemma resolve_at_settled l v st p :
  heap st !! l = Some p -> settled p = true -> resolve_at l v st = st.
Proof.
  intros Hl Hp. unfold resolve_at. rewrite (settle_settled _ _ _ _ Hl Hp).
  destruct st; reflexivity.
Qed.

Lemma reject_at_settled l v st p :
  heap st !! l = Some p -> settled p = true -> reject_at l v st = st.
Proof.
  intros Hl Hp. unfold reject_at. rewrite (settle_settled _ _ _ _ Hl Hp).
  destruct st; reflexivity.
Qed.

Lemma loop_throw fuel st reader line e st1 :
  JS.falsy (Some line) = false ->
  dispatch st line = (Throw e, st1) ->
  decodeDeferred_loop (S fuel) st reader {| done := false; chunk := Some line |}
  = Throws e st1 reader.
Proof. intros Hb Hd. cbn -[JS.falsy dispatch]. rewrite Hb, Hd. reflexivity. Qed.

(** The loop on a run of accepted lines: it arrives at the line after them
    in the state they leave. *)
Lemma loop_prefix fuel line rest how (pre : list string) : forall st l0 st1,
  drained st (l0 :: pre) = Some st1 ->
  decodeDeferred_loop (S (length pre) + fuel) st
    {| lines := pre ++ line :: rest; ending := how |}
    {| done := false; chunk := Some l0 |}
  = decodeDeferred_loop fuel st1 {| lines := rest; ending := how |}
      {| done := false; chunk := Some line |}.
Proof.
  induction pre as [|l1 pre IH]; intros st l0 st1 Hd;
    cbn -[JS.falsy dispatch decodeDeferred_loop] in Hd;
    destruct (JS.falsy (Some l0)) eqn:Hb; try discriminate;
    destruct (dispatch st l0) as [[[]|e] st'] eqn:Hs; try discriminate.
  - injection Hd as <-.
    cbn -[JS.falsy dispatch]. rewrite Hb, Hs. reflexivity.
  - change (S (length (l1 :: pre)) + fuel)%nat with (S (S (length pre) + fuel)).
    cbn -[JS.falsy dispatch Nat.add]. rewrite Hb, Hs.
    apply (IH st' l1 st1 Hd).
Qed.

Lemma decodeDeferred_prefix fuel line rest how (pre : list string) st st1 :
  drained st pre = Some st1 ->
  decodeDeferred (length pre + fuel) st
    {| lines := pre ++ line :: rest; ending := how |}
  = decodeDeferred_loop fuel st1 {| lines := rest; ending := how |}
      {| done := false; chunk := Some line |}.
Proof.
  destruct pre as [|l0 pre]; intros Hd.
  - injection Hd as <-. reflexivity.
  - unfold decodeDeferred. apply (loop_prefix fuel line rest how pre st l0 st1 Hd).
Qed.

(** The loop on a stream of accepted lines that closes: it returns, in the
    state the lines leave. *)
Lemma loop_accepts fuel (pre : list string) : forall st l0 st1,
  drained st (l0 :: pre) = Some st1 ->
  decodeDeferred_loop (S (S (length pre)) + fuel) st
    {| lines := pre; ending := Closed |}
    {| done := false; chunk := Some l0 |}
  = Returns st1 {| lines := []; ending := Closed |}.
Proof.
  induction pre as [|l1 pre IH]; intros st l0 st1 Hd;
    cbn -[JS.falsy dispatch decodeDeferred_loop] in Hd;
    destruct (JS.falsy (Some l0)) eqn:Hb; try discriminate;
    destruct (dispatch st l0) as [[[]|e] st'] eqn:Hs; try discriminate.
  - injection Hd as <-.
    cbn -[JS.falsy dispatch]. rewrite Hb, Hs. reflexivity.
  - change (S (S (length (l1 :: pre))) + fuel)%nat
      with (S (S (S (length pre)) + fuel)).
    cbn -[JS.falsy dispatch Nat.add]. rewrite Hb, Hs.
    apply (IH st' l1 st1 Hd).
Qed.

Lemma decodeDeferred_accepts fuel (ls : list string) st st1 :
  drained st ls = Some st1 ->
  decodeDeferred (S (length ls) + fuel) st {| lines := ls; ending := Closed |}
  = Returns st1 {| lines := []; ending := Closed |}.
Proof.
  destruct ls as [|l0 pre]; intros Hd.
  - injection Hd as <-. reflexivity.
  - unfold decodeDeferred. apply (loop_accepts fuel pre st l0 st1 Hd).
Qed.

(** With no more fuel than accepted lines ahead, the loop is still on its
    way. *)
Lemma loop_short_of_fuel tail how (pre : list string) : forall fuel st l0 st1,
  drained st (l0 :: pre) = Some st1 ->
  (fuel <= length pre)%nat ->
  decodeDeferred_loop fuel st {| lines := pre ++ tail; ending := how |}
    {| done := false; chunk := Some l0 |}
  = OutOfFuel.
Proof.
  induction pre as [|l1 pre IH]; intros fuel st l0 st1 Hd Hfuel.
  - assert (fuel = O) by (simpl in Hfuel; lia). subst. reflexivity.
  - destruct fuel as [|fuel]; [reflexivity|].
    cbn -[JS.falsy dispatch decodeDeferred_loop] in Hd.
    destruct (JS.falsy (Some l0)) eqn:Hb; [discriminate|].
    destruct (dispatch st l0) as [[[]|e] st'] eqn:Hs; [|discriminate].
    cbn -[JS.falsy dispatch]. rewrite Hb, Hs.
    apply (IH fuel st' l1 st1 Hd). simpl in Hfuel. lia.
Qed.

(** A settlement line whose id is not in the registry: the switch throws the
    lookup error before it looks at the payload. *)
Lemma dispatch_unknown_id st line :
  JS.char0 line = Some TYPE_PROMISE \/ JS.char0 line = Some TYPE_ERROR ->
  lookup_deferred (decoder st) (Number (JS.slice line 1 (JS.indexOf ":"%char line))) = None ->
  dispatch st line
  = (Throw (not_found (Number (JS.slice line 1 (JS.indexOf ":"%char line)))), st).
Proof.
  intros Hm Hl. unfold dispatch.
  destruct (decide (JS.char0 line = Some TYPE_PROMISE)) as [_|Hp].
  - rewrite Hl. reflexivity.
  - destruct (decide (JS.char0 line = Some TYPE_ERROR)) as [_|He].
    + rewrite Hl. reflexivity.
    + destruct Hm; contradiction.
Qed.

(** What [decode] makes of a drain that throws: the handler of [.catch]
    runs, and the promise handed out as [done] follows [reader.closed]. *)
Lemma decode_failure_path fuel readable plugins v st reader reason st' reader' :
  decodeInitial (initial_state plugins) readable = (Normal (false, v), st, reader) ->
  decodeDeferred fuel st reader = Throws reason st' reader' ->
  decode fuel readable plugins
  = DecodeReturns {| result_value := v;
                     result_done := reader_closed reader';
                     done_deferred := Rejected reason;
                     final_state := reject_all reason st';
                     final_reader := reader' |}.
Proof. intros Hi Hd. unfold decode. rewrite Hi, Hd. reflexivity. Qed.

(** C1 (the code departs from the claim).  A blank line is meant to be
    skipped, after which the following lines are read; in the code the
    [continue] of line 87 returns to the loop test without reading.  So on a
    stream that has a blank line after any run of accepted lines
    [decodeDeferred] ends for no amount of fuel: it neither processes the
    lines after the blank one nor terminates. *)
Theorem decodeDeferred_blank_line_never_ends (pre : list string) rest how fuel st st1 :
  drained st pre = Some st1 ->
  decodeDeferred fuel st {| lines := pre ++ EmptyString :: rest; ending := how |}
  = OutOfFuel.
Proof.
  intros Hd.
  destruct (Nat.le_gt_cases (length pre) fuel) as [Hle|Hgt].
  - replace fuel with (length pre + (fuel - length pre))%nat by lia.
    rewrite (decodeDeferred_prefix _ _ _ _ _ _ _ Hd). apply loop_blank_line.
  - destruct pre as [|l0 pre]; [simpl in Hgt; lia|].
    unfold decodeDeferred. cbn [app reader_read lines ending].
    apply (loop_short_of_fuel _ _ _ _ _ _ _ Hd). simpl in Hgt. lia.
Qed.

(** C2, amended.  When the stream closes after lines that were all read and
    dispatched without error, [decode] takes the success path whatever the
    registry holds: the completion signal resolves, and the state is the one
    the last line left, so that a placeholder still pending stays pending. *)
Theorem close_resolves_whatever_is_pending fuel readable plugins v st reader st' :
  decodeInitial (initial_state plugins) readable = (Normal (false, v), st, reader) ->
  ending readable = Closed ->
  drained st (lines reader) = Some st' ->
  decode (S (length (lines reader)) + fuel) readable plugins
  = DecodeReturns {| result_value := v;
                     result_done := Fulfilled Undefined;
                     done_deferred := Fulfilled Undefined;
                     final_state := st';
                     final_reader := {| lines := []; ending := Closed |} |}.
Proof.
  intros Hi Hclosed Hd.
  assert (Hend : ending reader = Closed)
    by (rewrite (decodeInitial_ending _ _ _ _ _ Hi); exact Hclosed).
  destruct reader as [ls how]. cbn [lines ending] in *. subst how.
  unfold decode. rewrite Hi, (decodeDeferred_accepts fuel ls st st' Hd).
  reflexivity.
Qed.

(** C3 (the code departs from the claim).  After any run of accepted lines,
    a settlement line whose id is not in the registry makes the drain throw
    the lookup error; every pending placeholder of the registry is rejected
    with it, and so is the [Deferred] named [done].  The promise that
    [decode] returns as [done] is another one: on a stream that closes it is
    fulfilled when the faulty line was the last one, and stays pending
    otherwise; it never rejects with the lookup error. *)
Theorem unknown_id_rejects_placeholders_not_done
    fuel readable plugins v st reader (pre : list string) st1 line rest :
  decodeInitial (initial_state plugins) readable = (Normal (false, v), st, reader) ->
  ending readable = Closed ->
  lines reader = pre ++ line :: rest ->
  drained st pre = Some st1 ->
  JS.char0 line = Some TYPE_PROMISE \/ JS.char0 line = Some TYPE_ERROR ->
  lookup_deferred (decoder st1) (Number (JS.slice line 1 (JS.indexOf ":"%char line))) = None ->
  let reason := not_found (Number (JS.slice line 1 (JS.indexOf ":"%char line))) in
  exists d,
    decode (length pre + S fuel) readable plugins = DecodeReturns d /\
    done_deferred d = Rejected reason /\
    (forall id l, deferred (decoder st1) !! id = Some l ->
                  heap st1 !! l = Some Pending ->
                  heap (final_state d) !! l = Some (Rejected reason)) /\
    result_done d = match rest with [] => Fulfilled Undefined | _ => Pending end /\
    result_done d <> Rejected reason.
Proof.
  intros Hi Hclosed Hlines Hpre Hm Hl reason.
  assert (Hend : ending reader = Closed)
    by (rewrite (decodeInitial_ending _ _ _ _ _ Hi); exact Hclosed).
  assert (Hd : decodeDeferred (length pre + S fuel) st reader
               = Throws reason st1 {| lines := rest; ending := Closed |}).
  { destruct reader as [ls how]. simpl in Hlines, Hend. subst ls how.
    rewrite (decodeDeferred_prefix _ _ _ _ _ _ _ Hpre).
    apply loop_throw; [|apply dispatch_unknown_id; auto].
    destruct Hm as [Hm|Hm]; exact (char0_not_blank _ _ Hm). }
  eexists. split; [apply (decode_failure_path _ _ _ _ _ _ _ _ _ Hi Hd)|].
  simpl. split; [reflexivity|]. split; [|split].
  - intros id l Hid Hp. eapply (proj1 (reject_all_spec reason st1)); eauto.
  - unfold reader_closed. simpl. destruct rest; reflexivity.
  - unfold reader_closed. simpl. destruct rest; discriminate.
Qed.

(** C4, amended.  A settlement line whose id is in the registry and whose
    placeholder is already settled is no error: its payload is parsed and
    hydrated, the placeholder keeps its first settlement, and the loop goes
    on from the state that hydration left. *)
Theorem settled_id_is_ignored st line l jsonLine v st' p :
  JS.char0 line = Some TYPE_PROMISE \/ JS.char0 line = Some TYPE_ERROR ->
  lookup_deferred (decoder st) (Number (JS.slice line 1 (JS.indexOf ":"%char line))) = Some l ->
  JSON_parse (JS.slice_from line (JS.indexOf ":"%char line + 1)) = Some jsonLine ->
  unflatten st jsonLine = (Normal v, st') ->
  heap st' !! l = Some p ->
  settled p = true ->
  dispatch st line = (Normal tt, st') /\ heap st' !! l = Some p.
Proof.
  intros Hm Hl Hj Hu Hp Hs. split; [|exact Hp]. unfold dispatch.
  destruct (decide (JS.char0 line = Some TYPE_PROMISE)) as [_|Hnp].
  - rewrite Hl, Hj, Hu. rewrite (resolve_at_settled _ _ _ _ Hp Hs). reflexivity.
  - destruct (decide (JS.char0 line = Some TYPE_ERROR)) as [_|Hne].
    + rewrite Hl, Hj, Hu. rewrite (reject_at_settled _ _ _ _ Hp Hs). reflexivity.
    + destruct Hm; contradiction.
Qed.

(** C9.  [decode] rejects with a syntax error, and so hands out no value,
    when the stream closes before a first line or when the first line is no
    valid structured text; and a settlement line whose first character is
    neither marker makes the drain throw a syntax error. *)
Theorem malformed_input_is_a_syntax_error
    fuel readable plugins st reader line c :
  (lines readable = [] /\ ending readable = Closed) \/
  (exists l rest, lines readable = l :: rest /\ JSON_parse l = None) ->
  JS.char0 line = Some c -> c <> TYPE_PROMISE -> c <> TYPE_ERROR ->
  decode fuel readable plugins = DecodeRejects SyntaxError /\
  decodeDeferred_loop (S fuel) st reader {| done := false; chunk := Some line |}
  = Throws SyntaxError st reader.
Proof.
  intros Hfirst Hc Hp He. split.
  - unfold decode, decodeInitial, reader_read.
    destruct Hfirst as [[-> ->]|(l & rest & -> & Hj)]; simpl; [reflexivity|].
    unfold JS.falsy. destruct (decide (l = EmptyString)); [reflexivity|].
    rewrite Hj. reflexivity.
  - apply loop_throw; [exact (char0_not_blank _ _ Hc)|].
    unfold dispatch. rewrite Hc.
    destruct (decide (Some c = Some TYPE_PROMISE)); [congruence|].
    destruct (decide (Some c = Some TYPE_ERROR)); [congruence|reflexivity].
Qed.

(** A registry with integer ids has no entry under the key of
    not-a-number. *)
Lemma nan_is_no_integer_id (this : ThisDecode) :
  integer_ids this -> lookup_deferred this JS.NaN = None.
Proof.
  intros Hkeys. unfold lookup_deferred. cbn [number_to_string].
  destruct (deferred this !! "NaN") as [l|] eqn:Hl; [|reflexivity].
  destruct (Hkeys _ _ Hl) as [id Hid].
  destruct (pretty_Z_not_NaN id). symmetry. exact Hid.
Qed.

(** With an Unflattener that registers under integer ids only, the registry
    is on integer ids all through a run of [decode]: the orchestrator itself
    never writes to it. *)
Lemma dispatch_integer_ids st line :
  keeps_integer_ids -> integer_ids (decoder st) ->
  integer_ids (decoder (dispatch st line).2).
Proof.
  intros Hkeeps Hkeys. unfold dispatch.
  pose proof (fun j => Hkeeps st j Hkeys) as Hu.
  repeat case_match; simpl; try exact Hkeys;
    match goal with
    | Hj : unflatten st ?j = _ |- _ => specialize (Hu j); rewrite Hj in Hu; exact Hu
    end.
Qed.

Lemma drained_integer_ids (ls : list string) : forall st st1,
  keeps_integer_ids -> integer_ids (decoder st) ->
  drained st ls = Some st1 -> integer_ids (decoder st1).
Proof.
  induction ls as [|l ls IH]; intros st st1 Hkeeps Hkeys;
    cbn -[JS.falsy dispatch].
  - intros [= <-]. exact Hkeys.
  - destruct (JS.falsy (Some l)); [discriminate|].
    pose proof (dispatch_integer_ids st l Hkeeps Hkeys) as Hd.
    destruct (dispatch st l) as [[[]|e] st']; [|discriminate].
    apply (IH st' st1 Hkeeps Hd).
Qed.

Lemma decodeInitial_integer_ids plugins readable c st reader :
  keeps_integer_ids ->
  decodeInitial (initial_state plugins) readable = (c, st, reader) ->
  integer_ids (decoder st).
Proof.
  intros Hkeeps. unfold decodeInitial.
  assert (Hempty : integer_ids (decoder (initial_state plugins)))
    by (intros key l; cbn; rewrite lookup_empty; discriminate).
  destruct (reader_read readable) as [[read|e] reader'];
    [|intros [= _ <- _]; exact Hempty].
  destruct (JS.falsy (chunk read)); [intros [= _ <- _]; exact Hempty|].
  destruct (JSON_parse _) as [j|]; [|intros [= _ <- _]; exact Hempty].
  pose proof (Hkeeps _ j Hempty) as Hu.
  destruct (unflatten (initial_state plugins) j) as [[v|e] st'];
    intros [= _ <- _]; exact Hu.
Qed.

(** C10.  A settlement line with a valid marker and a colon whose id field
    does not parse as a number makes the drain throw the lookup error
    "Deferred ID NaN not found in stream", which is no syntax error: the
    lookup reads the registry under the property key [NaN], and a registry
    whose keys are integer ids has no such key. *)
Theorem nan_id_is_a_lookup_error fuel st reader line :
  integer_ids (decoder st) ->
  JS.char0 line = Some TYPE_PROMISE \/ JS.char0 line = Some TYPE_ERROR ->
  0 <= JS.indexOf ":"%char line ->
  Number (JS.slice line 1 (JS.indexOf ":"%char line)) = JS.NaN ->
  decodeDeferred_loop (S fuel) st reader {| done := false; chunk := Some line |}
  = Throws (Error "Deferred ID NaN not found in stream") st reader /\
  Error "Deferred ID NaN not found in stream" <> SyntaxError.
Proof.
  intros Hkeys Hm _ Hn. split; [|discriminate].
  apply loop_throw.
  - destruct Hm as [Hm|Hm]; exact (char0_not_blank _ _ Hm).
  - rewrite dispatch_unknown_id; rewrite ?Hn; auto.
    apply nan_is_no_integer_id, Hkeys.
Qed.

End DecodeFacts.

(** * Properties of the encode side *)

Section EncodeFacts.
Context `{Flattener}.

Implicit Types (st : EncodeState) (enc : ThisEncode) (fs : list frame).

Lemma transmitted_snoc fs f : transmitted (fs ++ [f]) = transmitted fs ++ carried f.
Proof.
  unfold transmitted. rewrite fmap_app, concat_app. simpl.
  rewrite app_nil_r. reflexivity.
Qed.

Lemma aliases_snoc fs f :
  aliases (fs ++ [f]) = (aliases fs + (if is_alias f then 1 else 0))%nat.
Proof. induction fs as [|g fs IH]; simpl; [lia|]. rewrite IH. lia. Qed.

Lemma written_app (l1 l2 : list (option string)) :
  written (l1 ++ l2) = written l1 ++ written l2.
Proof. apply omap_app. Qed.

Lemma written_holes n : written (replicate n None) = [].
Proof. induction n; simpl; auto. Qed.

Lemma written_somes (news : list string) : written (Some <$> news) = news.
Proof. induction news as [|x news IH]; simpl; [reflexivity|]. unfold written in IH. simpl. f_equal. exact IH. Qed.

Lemma slice_from_app {A} (l1 l2 : list A) :
  slice_from (l1 ++ l2) (Z.of_nat (length l1)) = l2.
Proof.
  unfold slice_from, JS.clamp. rewrite length_app.
  destruct (Z.ltb_spec (Z.of_nat (length l1)) 0); [lia|].
  rewrite Z.min_l by lia. rewrite Nat2Z.id. apply drop_app_length.
Qed.

(** One settlement with either marker keeps the invariant; this is the
    common shape of the two handlers. *)
Lemma settle_step_in_step (flattens : flatten_contract) st marker d v :
  in_step st ->
  in_step
    (match flatten (encoder st) v with
     | (RefArray id0, enc) =>
         enqueue (Settlement marker d (Alias id0)) (bump_index enc) (lastSentIndex st + 1) st
     | (RefNumber id, enc) =>
         if id <? 0 then enqueue (Settlement marker d (Sentinel id)) enc (lastSentIndex st) st
         else enqueue (Settlement marker d
                         (Fragments (slice_from (stringified enc) (lastSentIndex st + 1))))
                      enc (Z.of_nat (length (stringified enc)) - 1) st
     end).
Proof.
  intros [Hlen Hmark Hsent Hcur].
  pose proof (flattens (encoder st) v Hlen) as Hc.
  destruct (flatten (encoder st) v) as [[n|id0] enc].
  - destruct (n <? 0).
    + subst enc. split; simpl; auto.
      * rewrite transmitted_snoc. simpl. rewrite app_nil_r. exact Hsent.
      * rewrite aliases_snoc. simpl. lia.
    + destruct Hc as (news & Htab & Hidx).
      rewrite app_assoc in Htab.
      set (padded := stringified (encoder st) ++ replicate _ None) in Htab.
      assert (Hpad : Z.of_nat (length padded) = index (encoder st)).
      { unfold padded. rewrite length_app, length_replicate. lia. }
      assert (Hwr : written (stringified enc) = written (stringified (encoder st)) ++ news).
      { rewrite Htab. unfold padded.
        rewrite !written_app, written_holes, written_somes, app_nil_r. reflexivity. }
      split; simpl.
      * rewrite Htab, length_app, length_fmap. lia.
      * rewrite Htab, length_app, length_fmap. lia.
      * rewrite transmitted_snoc. simpl. rewrite Hsent, Hwr, Htab.
        replace (lastSentIndex st + 1) with (Z.of_nat (length padded)) by lia.
        rewrite slice_from_app, fmap_app. reflexivity.
      * rewrite aliases_snoc, Hwr, length_app. simpl. lia.
  - subst enc. split; simpl; try lia.
    + rewrite transmitted_snoc. simpl. rewrite app_nil_r. exact Hsent.
    + rewrite aliases_snoc. simpl. lia.
Qed.

Lemma on_resolved_in_step (flattens : flatten_contract) st d v :
  in_step st -> in_step (on_resolved d v st).
Proof. apply (settle_step_in_step flattens st TYPE_PROMISE d v). Qed.

Lemma on_rejected_in_step (flattens : flatten_contract) st d r :
  in_step st -> in_step (on_rejected d r st).
Proof. apply (settle_step_in_step flattens st TYPE_ERROR d (normalize r)). Qed.

Lemma forget_in_step st d : in_step st -> in_step (forget d st).
Proof. intros [? ? ? ?]. split; assumption. Qed.

Lemma fire_in_step st why : in_step st -> in_step (fire why st).
Proof. intros [? ? ? ?]. split; assumption. Qed.

Lemma settle_entry_in_step (flattens : flatten_contract) st d p :
  in_step st -> in_step (settle_entry d p st).
Proof.
  intros Hst. destruct p as [|v|r|t]; simpl;
    [exact Hst
    |apply forget_in_step, on_resolved_in_step; auto
    |apply forget_in_step, on_rejected_in_step; auto
    |exact Hst].
Qed.

Lemma scan_in_step (flattens : flatten_contract) st : in_step st -> in_step (scan st).
Proof.
  unfold scan. generalize (signal (encoder st)) as sig.
  generalize (registry_keys (encoder st)) as ks. intros ks. revert st.
  induction ks as [|d ks IH]; intros st sig Hst; simpl; [exact Hst|].
  apply IH, settle_entry_in_step; auto.
Qed.

Lemma settlement_loop_in_step (flattens : flatten_contract) fuel : forall st schedule,
  in_step st -> in_step (settlement_loop fuel st schedule).2.
Proof.
  induction fuel as [|fuel IH]; intros st schedule Hst; simpl; [exact Hst|].
  destruct (decide _); [exact Hst|].
  destruct (is_aborted st); [apply IH, scan_in_step; auto|].
  destruct schedule as [|[d outcome|why] schedule]; [exact Hst|..].
  - destruct (enc_deferred (encoder st) !! d); [|apply IH, Hst].
    apply IH, settle_entry_in_step; auto.
  - apply IH, fire_in_step, Hst.
Qed.

Lemma registry_keys_elem enc i :
  i ∈ registry_keys enc <-> is_Some (enc_deferred enc !! i).
Proof.
  unfold registry_keys. rewrite merge_sort_Permutation, list_elem_of_fmap. split.
  - intros [[k v] [-> Hkv]]. apply elem_of_map_to_list in Hkv. simpl. eauto.
  - intros [v Hv]. exists (i, v). split; [reflexivity|]. apply elem_of_map_to_list, Hv.
Qed.

Lemma registry_keys_length enc :
  length (registry_keys enc) = size (enc_deferred enc).
Proof.
  unfold registry_keys. rewrite merge_sort_Permutation, length_fmap.
  apply length_map_to_list.
Qed.

Lemma foldl_delete_all (ks : list Z) : forall (m : gmap Z value),
  (forall i, is_Some (m !! i) -> i ∈ ks) ->
  foldl (fun m d => delete d m) m ks = ∅.
Proof.
  induction ks as [|d ks IH]; intros m Hm; simpl.
  - apply map_empty. intros i. destruct (m !! i) eqn:Hi; [|reflexivity].
    specialize (Hm i (mk_is_Some _ _ Hi)). inversion Hm.
  - apply IH. intros i [v Hi]. rewrite lookup_delete in Hi.
    destruct (decide (d = i)) as [->|Hne]; [discriminate|].
    specialize (Hm i (mk_is_Some _ _ Hi)). apply elem_of_cons in Hm.
    destruct Hm; [congruence|assumption].
Qed.

Lemma loop_closed fuel st schedule :
  enc_deferred (encoder st) = ∅ ->
  settlement_loop (S fuel) st schedule = (StreamClosed, st).
Proof. intros He. simpl. destruct (decide _); [reflexivity|contradiction]. Qed.

Lemma loop_aborted fuel st schedule :
  enc_deferred (encoder st) <> ∅ -> is_aborted st = true ->
  settlement_loop (S fuel) st schedule = settlement_loop fuel (scan st) schedule.
Proof.
  intros Hne Ha. simpl. destruct (decide _); [contradiction|]. rewrite Ha. reflexivity.
Qed.


(** One rejection whose error registers nothing: one frame with the error
    marker, and a registry that only loses the entry. *)
Lemma rejection_step d r st :
  registers_nothing (normalize r) ->
  let st' := settle_entry d (Rejected r) st in
  enc_deferred (encoder st') = delete d (enc_deferred (encoder st)) /\
  signal (encoder st') = signal (encoder st) /\
  exists f, enqueued st' = enqueued st ++ [f] /\ is_rejection_for r d f.
Proof.
  intros Hq. simpl.
  assert (Hf : exists p, enqueued (on_rejected d r st)
                         = enqueued st ++ [Settlement TYPE_ERROR d p]).
  { unfold on_rejected.
    destruct (flatten (encoder st) (normalize r)) as [[n|id0] enc];
      [destruct (n <? 0)|]; eexists; reflexivity. }
  assert (Hkeep : enc_deferred (encoder (on_rejected d r st)) = enc_deferred (encoder st)
                  /\ signal (encoder (on_rejected d r st)) = signal (encoder st)).
  { unfold on_rejected. destruct (Hq (encoder st)) as [Hreg Hsig].
    destruct (flatten (encoder st) (normalize r)) as [[n|id0] enc];
      [destruct (n <? 0)|]; simpl in *; auto. }
  destruct Hkeep as [Hreg Hsig]. destruct Hf as [p Hp].
  rewrite Hreg, Hsig. split; [reflexivity|]. split; [reflexivity|].
  exists (Settlement TYPE_ERROR d p). split; [exact Hp|].
  split; [exists p; reflexivity|exists st; exact Hp].
Qed.

Lemma rejection_batch r (ks : list Z) :
  registers_nothing (normalize r) ->
  forall st,
    let st' := foldl (fun st d => settle_entry d (Rejected r) st) st ks in
    enc_deferred (encoder st') = foldl (fun m d => delete d m) (enc_deferred (encoder st)) ks /\
    signal (encoder st') = signal (encoder st) /\
    exists fs, enqueued st' = enqueued st ++ fs /\ Forall2 (is_rejection_for r) ks fs.
Proof.
  intros Hq. induction ks as [|d ks IH]; intros st; simpl.
  - split; [reflexivity|]. split; [reflexivity|]. exists []. rewrite app_nil_r. split; constructor.
  - destruct (rejection_step d r st Hq) as (Hreg & Hsig & f & Hf & Hrej).
    destruct (IH (settle_entry d (Rejected r) st)) as (Hreg' & Hsig' & fs & Hfs & Hall).
    simpl in *. split; [rewrite Hreg', Hreg; reflexivity|].
    split; [rewrite Hsig', Hsig; reflexivity|].
    exists (f :: fs). split; [|constructor; assumption].
    rewrite Hfs, Hf, <- app_assoc. reflexivity.
Qed.

(** After the first step the stream either carries one sentinel and nothing
    is outstanding, or it is in step. *)
Lemma initial_in_step (flattens : flatten_contract) input plugins signal st :
  start_initial input (initial_stream plugins signal) = Normal st ->
  (exists n, st = enqueue (Initial (Sentinel n)) (initial_encoder plugins signal) 0
                          (initial_stream plugins signal))
  \/ in_step st.
Proof.
  unfold start_initial. simpl.
  pose proof (flattens (initial_encoder plugins signal) input) as Hc.
  destruct (flatten _ input) as [[n|id0] enc]; [|discriminate].
  specialize (Hc (Z.le_refl _)).
  destruct (n <? 0); intros [= <-].
  - left. subst enc. exists n. reflexivity.
  - right. destruct Hc as (news & Htab & Hidx). simpl in Htab, Hidx.
    split; simpl; rewrite Htab, ?written_somes, ?length_fmap; try lia.
    unfold transmitted. simpl. rewrite app_nil_r. reflexivity.
Qed.

(** C5.  The first step of [encode], by the shape of what flattening the
    input returns: on the alias wrapper the stream fails with the internal
    error and nothing was enqueued; on an inline sentinel, which registers no
    promise, the stream carries the one line of the sentinel and closes; on a
    table index the one line carries the whole table and the high-water mark
    is the last index of the table. *)
Theorem encode_first_step fuel input plugins signal schedule r enc :
  flatten (initial_encoder plugins signal) input = (r, enc) ->
  (forall n, r = RefNumber n -> n < 0 -> enc_deferred enc = ∅) ->
  match r with
  | RefArray _ =>
      encode fuel input plugins signal schedule
      = (StreamErrored (Error "This should never happen"), initial_stream plugins signal)
      /\ enqueued (initial_stream plugins signal) = []
  | RefNumber n =>
      if n <? 0 then
        exists st,
          encode (S fuel) input plugins signal schedule = (StreamClosed, st) /\
          enqueued st = [Initial (Sentinel n)] /\
          render (Initial (Sentinel n)) = pretty n +:+ newline
      else
        exists st,
          start_initial input (initial_stream plugins signal) = Normal st /\
          encode fuel input plugins signal schedule = settlement_loop fuel st schedule /\
          enqueued st = [Initial (Fragments (stringified enc))] /\
          lastSentIndex st = Z.of_nat (length (stringified enc)) - 1
  end.
Proof.
  intros Hf Hreg.
  assert (Hf' : flatten (encoder (initial_stream plugins signal)) input = (r, enc))
    by exact Hf.
  destruct r as [n|id0].
  - destruct (Z.ltb_spec n 0) as [Hneg|Hpos].
    + eexists. split.
      * unfold encode, start_initial. rewrite Hf'.
        destruct (Z.ltb_spec n 0); [|lia].
        cbn [settlement_loop enqueue encoder]. rewrite (Hreg n eq_refl Hneg).
        destruct (decide _) as [_|Hne]; [reflexivity|contradiction].
      * split; reflexivity.
    + eexists. unfold encode, start_initial. rewrite Hf'.
      destruct (Z.ltb_spec n 0); [lia|].
      split; [reflexivity|]. split; [reflexivity|]. split; reflexivity.
  - unfold encode, start_initial. rewrite Hf'. split; reflexivity.
Qed.

(** C6.  With a Flattener that keeps its contract, a settlement frame that
    is neither a sentinel nor an alias carries the table from the slot after
    the high-water mark on and moves the mark to the last index; and over a
    whole run the frames carry the written entries of the table, each once
    and in index order, so that as many entries are sent as the table
    holds.  The slots that the cursor counts beyond them are those of the
    alias frames. *)
Theorem no_fragment_is_sent_twice
    (flattens : flatten_contract) fuel input plugins signal schedule :
  (forall st d v n enc,
      flatten (encoder st) v = (RefNumber n, enc) -> 0 <= n ->
      on_resolved d v st
      = enqueue (Settlement TYPE_PROMISE d
                   (Fragments (slice_from (stringified enc) (lastSentIndex st + 1))))
                enc (Z.of_nat (length (stringified enc)) - 1) st) /\
  (forall st d r n enc,
      flatten (encoder st) (normalize r) = (RefNumber n, enc) -> 0 <= n ->
      on_rejected d r st
      = enqueue (Settlement TYPE_ERROR d
                   (Fragments (slice_from (stringified enc) (lastSentIndex st + 1))))
                enc (Z.of_nat (length (stringified enc)) - 1) st) /\
  let st := (encode fuel input plugins signal schedule).2 in
  transmitted (enqueued st) = Some <$> written (stringified (encoder st)) /\
  length (transmitted (enqueued st)) = length (written (stringified (encoder st))) /\
  index (encoder st)
  = Z.of_nat (length (transmitted (enqueued st))) + Z.of_nat (aliases (enqueued st)).
Proof.
  split; [|split].
  { intros st d v n enc Hf Hn. unfold on_resolved. rewrite Hf.
    destruct (Z.ltb_spec n 0); [lia|reflexivity]. }
  { intros st d r n enc Hf Hn. unfold on_rejected. rewrite Hf.
    destruct (Z.ltb_spec n 0); [lia|reflexivity]. }
  intros st.
  assert (Hsent : transmitted (enqueued st) = Some <$> written (stringified (encoder st))
                  /\ index (encoder st)
                     = Z.of_nat (length (written (stringified (encoder st))))
                       + Z.of_nat (aliases (enqueued st))).
  { subst st. unfold encode.
    destruct (start_initial input (initial_stream plugins signal)) as [st1|e] eqn:Hs;
      [|split; reflexivity].
    destruct (initial_in_step flattens _ _ _ _ Hs) as [[n ->]|Hin].
    - destruct fuel as [|fuel]; [split; reflexivity|].
      rewrite loop_closed by reflexivity. split; reflexivity.
    - pose proof (settlement_loop_in_step flattens fuel st1 schedule Hin) as Hend.
      split; [apply (all_sent _ Hend)|apply (cursor_counts _ Hend)]. }
  destruct Hsent as [Hsent Hcur].
  split; [exact Hsent|]. rewrite Hsent, length_fmap. split; [reflexivity|exact Hcur].
Qed.


(** C8.  The rejection handler keeps a reason that is an error object and
    puts the generic error in the place of any other; it flattens the
    result and enqueues one frame with the error marker for the id, whose
    payload follows the rule that the fulfilment handler follows with the
    resolution marker. *)
Theorem rejection_frame_follows_the_payload_rule d reason v st :
  normalize reason
  = (if is_error_object reason then reason else Error "An unknown error occurred") /\
  enqueued (on_rejected d reason st)
  = enqueued st
    ++ [Settlement TYPE_ERROR d
          (payload_of (flatten (encoder st) (normalize reason)).1
                      (flatten (encoder st) (normalize reason)).2
                      (lastSentIndex st))] /\
  enqueued (on_resolved d v st)
  = enqueued st
    ++ [Settlement TYPE_PROMISE d
          (payload_of (flatten (encoder st) v).1 (flatten (encoder st) v).2
                      (lastSentIndex st))].
Proof.
  split; [reflexivity|]. unfold on_rejected, on_resolved, payload_of. split.
  - destruct (flatten (encoder st) (normalize reason)) as [[n|id0] enc]; simpl;
      [destruct (n <? 0)|]; reflexivity.
  - destruct (flatten (encoder st) v) as [[n|id0] enc]; simpl;
      [destruct (n <? 0)|]; reflexivity.
Qed.

End EncodeFacts.

(** * The orchestrators on the sample wire format *)

Section Examples.
Import Sample.
#[local] Existing Instance host.
#[local] Existing Instance unflattener.
#[local] Existing Instance flattener.

(** The sample Flattener keeps the contract. *)
Lemma sample_flatten_contract : flatten_contract.
Proof.
  intros enc v Hlen. simpl. unfold sample_flatten.
  destruct (lookup_index v (indices enc)); [reflexivity|].
  assert (Hi : (index enc <? 0) = false) by (apply Z.ltb_ge; lia).
  assert (Hw : forall s, write_at (index enc) s (stringified enc)
                 = stringified enc
                   ++ replicate (Z.to_nat (index enc) - length (stringified enc)) None
                   ++ (Some <$> [s])).
  { intros s. unfold write_at.
    destruct (Z.ltb_spec (index enc) (Z.of_nat (length (stringified enc)))); [lia|reflexivity]. }
  destruct v as [| |m|a]; [reflexivity|..]; rewrite Hi;
    eexists [_]; (split; [apply Hw|reflexivity]).
Qed.

Lemma sample_registers_nothing v : is_promise v = false -> registers_nothing v.
Proof.
  intros Hv enc. simpl. unfold sample_flatten.
  destruct (lookup_index v (indices enc)); [split; reflexivity|].
  destruct v as [| |m|[]]; simpl in *; try discriminate; split; reflexivity.
Qed.

(** Counterexample to C2: the stream closes while placeholder [0] is
    pending; the completion signal is fulfilled and the placeholder is still
    pending afterwards. *)
Lemma close_with_pending_placeholder :
  decode 1 (closing [promise_line]) None
  = DecodeReturns {| result_value := @Foreign host (PromiseObj 0);
                     result_done := Fulfilled Undefined;
                     done_deferred := Fulfilled Undefined;
                     final_state := registered;
                     final_reader := closing [] |} /\
  deferred (decoder registered) !! "0" = Some 0%nat /\
  heap registered !! 0%nat = Some Pending /\
  ~ nobody_waits registered.
Proof.
  repeat split. intros Hnone.
  destruct (Hnone "0" 0%nat eq_refl) as (p & Hp & Hs).
  change (Some Pending = Some p) in Hp. injection Hp as <-. discriminate Hs.
Qed.

Lemma close_resolves_witness :
  decodeInitial (initial_state None) (closing [promise_line])
  = (Normal (false, @Foreign host (PromiseObj 0)), registered, closing []) /\
  drained registered [] = Some registered /\
  decode 1 (closing [promise_line]) None
  = DecodeReturns {| result_value := @Foreign host (PromiseObj 0);
                     result_done := Fulfilled Undefined;
                     done_deferred := Fulfilled Undefined;
                     final_state := registered;
                     final_reader := closing [] |}.
Proof.
  split; [reflexivity|]. split; [reflexivity|].
  apply (close_resolves_whatever_is_pending (H:=host) (H0:=unflattener) 0
           (closing [promise_line]) None
           (@Foreign host (PromiseObj 0)) registered (closing []) registered);
    reflexivity.
Defined.

(** The failing input of C3: the second line names id [5], the registry
    holds id [0] only.  The pending placeholder is rejected with the lookup
    error, the [done] of the result is fulfilled. *)
Lemma unknown_id_witness :
  exists d,
    decode 1 (closing [promise_line; "P5:[1]"]) None = DecodeReturns d /\
    done_deferred d = Rejected (Error "Deferred ID 5 not found in stream") /\
    heap (final_state d) !! 0%nat
    = Some (Rejected (Error "Deferred ID 5 not found in stream")) /\
    result_done d = Fulfilled Undefined /\
    result_done d <> Rejected (Error "Deferred ID 5 not found in stream").
Proof.
  destruct (unknown_id_rejects_placeholders_not_done (H:=host) (H0:=unflattener) 0
              (closing [promise_line; "P5:[1]"]) None
              (@Foreign host (PromiseObj 0)) registered
              (closing ["P5:[1]"]) [] registered "P5:[1]" []
              eq_refl eq_refl eq_refl eq_refl (or_introl eq_refl) eq_refl)
    as (d & Hd & Hdone & Hheap & Hres & Hne).
  exists d. split; [exact Hd|]. split; [exact Hdone|].
  split; [apply (Hheap "0" 0%nat); reflexivity|]. split; [exact Hres|exact Hne].
Defined.

(** The same after an accepted line, with the rejection marker, and with a
    line left unread behind the faulty one: the [done] of the result stays
    pending. *)
Example unknown_id_after_prefix :
  decode 2 (closing [promise_line; "P0:[1]"; "E5:[1]"; "P0:[2]"]) None
  = DecodeReturns
      {| result_value := @Foreign host (PromiseObj 0);
         result_done := Pending;
         done_deferred := Rejected (Error "Deferred ID 5 not found in stream");
         final_state := resolved_once;
         final_reader := closing ["P0:[2]"] |}.
Proof. reflexivity. Qed.

(** Counterexample to C4: the third line settles id [0] a second time; the
    drain ends without an error, the completion signal is fulfilled, and the
    placeholder keeps the value of the first settlement. *)
Lemma second_settlement_is_silent :
  decode 3 (closing [promise_line; "P0:[1]"; "P0:[2]"]) None
  = DecodeReturns {| result_value := @Foreign host (PromiseObj 0);
                     result_done := Fulfilled Undefined;
                     done_deferred := Fulfilled Undefined;
                     final_state := resolved_twice;
                     final_reader := closing [] |} /\
  heap resolved_once !! 0%nat = Some (Fulfilled (@Foreign host (Num 1))) /\
  dispatch resolved_once "P0:[2]" = (Normal tt, resolved_twice) /\
  heap resolved_twice !! 0%nat = Some (Fulfilled (@Foreign host (Num 1))).
Proof. repeat split. Qed.

Lemma settled_id_witness :
  JS.char0 "P0:[2]" = Some "P" /\
  lookup_deferred (decoder resolved_once) (parse_number "0") = Some 0%nat /\
  parse_json "[2]" = Some (JArr [JNum 2]) /\
  sample_unflatten resolved_once (JArr [JNum 2])
  = (Normal (@Foreign host (Num 2)), resolved_twice) /\
  settled (Fulfilled (@Foreign host (Num 1))) = true /\
  dispatch resolved_once "P0:[2]" = (Normal tt, resolved_twice) /\
  heap resolved_twice !! 0%nat = Some (Fulfilled (@Foreign host (Num 1))).
Proof.
  repeat (split; [reflexivity|]).
  apply (settled_id_is_ignored (H:=host) (H0:=unflattener) resolved_once "P0:[2]"
           0%nat (JArr [JNum 2]) (@Foreign host (Num 2)) resolved_twice
           (Fulfilled (@Foreign host (Num 1))));
    first [reflexivity | left; reflexivity].
Defined.

Lemma malformed_input_witness :
  (lines (closing []) = [] /\ ending (closing []) = Closed) /\
  JS.char0 "X0:[1]" = Some "X" /\
  decode 0 (closing []) None = DecodeRejects SyntaxError /\
  decodeDeferred_loop 1 registered (closing [])
    {| done := false; chunk := Some "X0:[1]" |}
  = Throws SyntaxError registered (closing []).
Proof.
  split; [split; reflexivity|]. split; [reflexivity|].
  apply (malformed_input_is_a_syntax_error (H:=host) (H0:=unflattener) 0
           (closing []) None registered (closing []) "X0:[1]" "X").
  - left. split; reflexivity.
  - reflexivity.
  - discriminate.
  - discriminate.
Defined.

(** A first line that is no structured text. *)
Example malformed_first_line :
  decode 5 (closing ["{oops"; "P0:[1]"]) None = DecodeRejects SyntaxError.
Proof. reflexivity. Qed.

(** The sample Unflattener keeps the registry on integer ids. *)
Lemma sample_integer_ids st parsed :
  integer_ids (decoder st) -> integer_ids (decoder (sample_unflatten st parsed).2).
Proof.
  intros Hkeys. unfold sample_unflatten, hydrate, register.
  repeat case_match; simplify_eq/=; try exact Hkeys.
  intros key l. cbn [deferred]. rewrite lookup_insert.
  destruct (decide (pretty z = key)) as [<-|_]; [intros _; exists z; reflexivity|].
  apply Hkeys.
Qed.

Lemma sample_keeps_integer_ids : keeps_integer_ids.
Proof. intros st parsed. apply sample_integer_ids. Qed.

(** The lookup reads the registry under the text of the number: on a
    registry that held the key [NaN], which no Unflattener that registers
    under integer ids writes, a line whose id is no number would find it. *)
Example lookup_reads_the_property_key :
  lookup_deferred {| values := []; hydrated := ∅; deferred := {[ "NaN" := 0%nat ]};
                     plugins := None |}
                  (parse_number "x")
  = Some 0%nat.
Proof. reflexivity. Qed.

Lemma registered_integer_ids : integer_ids (decoder registered).
Proof.
  replace registered
    with (sample_unflatten (initial_state None) (JArr [JArr [JStr "P"; JNum 0]])).2
    by reflexivity.
  apply sample_integer_ids.
  intros key l. cbn. rewrite lookup_empty. discriminate.
Qed.

Lemma nan_id_witness :
  integer_ids (decoder registered) /\
  JS.char0 "Px:[1]" = Some "P" /\
  0 <= JS.indexOf ":"%char "Px:[1]" /\
  parse_number (JS.slice "Px:[1]" 1 (JS.indexOf ":"%char "Px:[1]")) = JS.NaN /\
  decodeDeferred_loop 1 registered (closing [])
    {| done := false; chunk := Some "Px:[1]" |}
  = Throws (Error "Deferred ID NaN not found in stream") registered (closing []) /\
  Error "Deferred ID NaN not found in stream" <> SyntaxError.
Proof.
  split; [exact registered_integer_ids|].
  split; [reflexivity|]. split; [discriminate|]. split; [reflexivity|].
  apply (nan_id_is_a_lookup_error (H:=host) (H0:=unflattener) 0 registered
           (closing []) "Px:[1]").
  - exact registered_integer_ids.
  - left. reflexivity.
  - discriminate.
  - reflexivity.
Defined.

Lemma blank_line_witness :
  drained registered ["P0:[1]"] = Some resolved_once /\
  decodeDeferred 7 registered (closing ["P0:[1]"; EmptyString; "P0:[2]"]) = OutOfFuel.
Proof.
  split; [reflexivity|].
  apply (decodeDeferred_blank_line_never_ends (H:=host) (H0:=unflattener)
           ["P0:[1]"] ["P0:[2]"] Closed 7 registered resolved_once).
  reflexivity.
Defined.

(** The failing input of C1 at the level of [decode]: after the first line
    comes a blank line; whatever the fuel, the drain does not end, and the
    line after the blank one is never looked at. *)
Lemma blank_line_hangs fuel :
  decode fuel (closing [promise_line; EmptyString; "P0:[1]"]) None
  = DecodeHangs (@Foreign host (PromiseObj 0)).
Proof.
  unfold decode.
  change (decodeInitial (initial_state None)
            (closing [promise_line; EmptyString; "P0:[1]"]))
    with (Normal (false, @Foreign host (PromiseObj 0)), registered,
          closing [EmptyString; "P0:[1]"]).
  cbv iota beta.
  change (decodeDeferred fuel registered (closing [EmptyString; "P0:[1]"]))
    with (decodeDeferred_loop fuel registered (closing ["P0:[1]"])
            {| done := false; chunk := Some EmptyString |}).
  rewrite loop_blank_line. reflexivity.
Qed.

Lemma first_step_witness :
  flatten (initial_encoder None None) Undefined
  = (RefNumber (-1), initial_encoder None None) /\
  enc_deferred (initial_encoder None None) = ∅ /\
  exists st,
    encode 1 Undefined None None [] = (StreamClosed, st) /\
    enqueued st = [Initial (Sentinel (-1))] /\
    render (Initial (Sentinel (-1))) = "-1" +:+ newline.
Proof.
  split; [reflexivity|]. split; [reflexivity|].
  apply (encode_first_step (H:=host) (H0:=flattener) 0 Undefined None None []
           (RefNumber (-1)) (initial_encoder None None) eq_refl).
  intros n _ _. reflexivity.
Defined.

(** The first step on a promise: the one line carries the whole table, the
    high-water mark is [0], and the promise is outstanding. *)
Example first_step_table :
  encode 0 (@Foreign host (PromiseObj 0)) None (Some live_signal) []
  = (NoFuel, one_outstanding).
Proof. reflexivity. Qed.

Lemma no_retransmission_witness :
  flatten_contract /\
  let st := (encode 4 (@Foreign host (PromiseObj 0)) None None
               [Settles 0 (Fulfilled (@Foreign host (PromiseObj 1)));
                Settles 1 (Fulfilled (@Foreign host (PromiseObj 1)))]).2 in
  transmitted (enqueued st) = Some <$> written (stringified (encoder st)) /\
  length (transmitted (enqueued st)) = length (written (stringified (encoder st))) /\
  index (encoder st)
  = Z.of_nat (length (transmitted (enqueued st))) + Z.of_nat (aliases (enqueued st)).
Proof.
  split; [exact sample_flatten_contract|].
  apply (proj2 (proj2 (no_fragment_is_sent_twice (H:=host) (H0:=flattener)
                         sample_flatten_contract 4 (@Foreign host (PromiseObj 0))
                         None None
                         [Settles 0 (Fulfilled (@Foreign host (PromiseObj 1)));
                          Settles 1 (Fulfilled (@Foreign host (PromiseObj 1)))]))).
Defined.

(** That run frame by frame: two fragments go out, one in each of the first
    two frames; the third frame is an alias and takes the slot [2]. *)
Example no_retransmission_run :
  let st := (encode 4 (@Foreign host (PromiseObj 0)) None None
               [Settles 0 (Fulfilled (@Foreign host (PromiseObj 1)));
                Settles 1 (Fulfilled (@Foreign host (PromiseObj 1)))]).2 in
  render <$> enqueued st
  = ["[[" +:+ quoted "P" +:+ ",0]]" +:+ newline;
     "P0:[[" +:+ quoted "P" +:+ ",1]]" +:+ newline;
     "P1:[[" +:+ quoted "R" +:+ ",1]]" +:+ newline] /\
  index (encoder st) = 3 /\ lastSentIndex st = 2 /\
  length (stringified (encoder st)) = 2%nat.
Proof. repeat split. Qed.


(** The frames of that run: the reason of the signal is no error object, so
    that the frame carries the generic error. *)
Example cancellation_run :
  render <$> enqueued
    (settlement_loop 3 one_outstanding [Aborts (@Foreign host (Str "stop"))]).2
  = ["[[" +:+ quoted "P" +:+ ",0]]" +:+ newline;
     "E0:[[" +:+ quoted "E" +:+ "," +:+ quoted "An unknown error occurred" +:+ "]]"
       +:+ newline].
Proof. reflexivity. Qed.

End Examples.

(** * Further properties of the decode side *)

Section DecodeMore.
Context `{Unflattener}.

Implicit Types (st : DecodeState) (reader : Reader) (read : ReadResult).

(** X1.  On a stream without blank lines the drain ends, by returning or by
    throwing, within one test of the loop condition per line and one more. *)
Theorem drain_without_blank_lines_ends st reader :
  Forall (fun l => l <> EmptyString) (lines reader) ->
  exists st' reader',
    decodeDeferred (S (length (lines reader))) st reader = Returns st' reader' \/
    exists e, decodeDeferred (S (length (lines reader))) st reader = Throws e st' reader'.
Proof.
  intros Hall. pose proof (decodeDeferred_terminates st reader Hall) as Hne.
  destruct (decodeDeferred _ st reader) as [|st' reader'|e st' reader'];
    [contradiction|..]; exists st', reader'; eauto.
Qed.

(** X2.  When [decodeInitial] returns, it has consumed exactly the first line
    of the stream, that line is not blank and parses, the value is the one
    the Unflattener made of it, and the [done] flag it reports is false: the
    branch of line 39 in [decode] is never taken with this reader. *)
Theorem decodeInitial_reads_one_line st reader b v st' reader' :
  decodeInitial st reader = (Normal (b, v), st', reader') ->
  b = false /\
  exists l j,
    lines reader = l :: lines reader' /\
    ending reader' = ending reader /\
    l <> EmptyString /\
    JSON_parse l = Some j /\
    unflatten st j = (Normal v, st').
Proof.
  unfold decodeInitial, reader_read.
  destruct (lines reader) as [|l ls] eqn:Hl.
  - destruct (ending reader); discriminate.
  - cbn [chunk done default]. unfold JS.falsy.
    destruct (decide (l = EmptyString)) as [|Hne]; [discriminate|].
    simpl. destruct (JSON_parse l) as [j|] eqn:Hj; [|discriminate].
    destruct (unflatten st j) as [[w|e] st1] eqn:Hu; [|discriminate].
    intros [= <- <- <- <-]. split; [reflexivity|].
    exists l, j. simpl. auto.
Qed.

(** X3.  [decode] itself rejects exactly for what goes wrong with the first
    line, and with that error: the transport error of a stream that fails
    before a first line, a syntax error for a missing, blank or unparsable
    first line, or what the Unflattener throws on it.  No later line makes
    [decode] reject. *)
Theorem decode_rejects_on_the_first_line_only fuel readable plugins e :
  decode fuel readable plugins = DecodeRejects e <->
  (lines readable = [] /\ ending readable = Errored e) \/
  (e = SyntaxError /\
   ((lines readable = [] /\ ending readable = Closed) \/
    exists l rest, lines readable = l :: rest /\
                   (l = EmptyString \/ JSON_parse l = None))) \/
  (exists l rest j st',
      lines readable = l :: rest /\ l <> EmptyString /\
      JSON_parse l = Some j /\
      unflatten (initial_state plugins) j = (Throw e, st')).
Proof.
  unfold decode, decodeInitial, reader_read.
  destruct (lines readable) as [|l rest] eqn:Hl.
  - destruct (ending readable) as [|e'] eqn:He; simpl.
    + split.
      * intros [= <-]. right. left. auto.
      * intros [[_ Hx]|[[-> _]|(l & rest & j & st' & Hx & _)]];
          [discriminate|reflexivity|discriminate].
    + split.
      * intros [= <-]. left. auto.
      * intros [[_ [= ->]]|[[_ [[_ Hx]|(l & rest & Hx & _)]]|(l & rest & j & st' & Hx & _)]];
          [reflexivity|discriminate..].
  - cbn [chunk done default]. unfold JS.falsy.
    destruct (decide (l = EmptyString)) as [Hb|Hnb].
    + split.
      * intros [= <-]. right. left. split; [reflexivity|]. right. eauto.
      * intros [[Hx _]|[[-> _]|(l' & rest' & j & st' & [= <- <-] & Hne & _)]];
          [discriminate|reflexivity|contradiction].
    + simpl. destruct (JSON_parse l) as [j|] eqn:Hj.
      * destruct (unflatten (initial_state plugins) j) as [[v|e'] st1] eqn:Hu.
        -- split.
           ++ destruct (decodeDeferred fuel st1 _); discriminate.
           ++ intros [[Hx _]|[[_ [[Hx _]|(l' & rest' & [= <- <-] & [Hx|Hx])]]
                             |(l' & rest' & j' & st' & [= <- <-] & _ & Hj' & Hu')]];
                try discriminate; try contradiction; congruence.
        -- split.
           ++ intros [= <-]. right. right. exists l, rest, j, st1. auto.
           ++ intros [[Hx _]|[[_ [[Hx _]|(l' & rest' & [= <- <-] & [Hx|Hx])]]
                             |(l' & rest' & j' & st' & [= <- <-] & _ & Hj' & Hu')]];
                try discriminate; try contradiction; congruence.
      * split.
        -- intros [= <-]. right. left. split; [reflexivity|]. right. eauto.
        -- intros [[Hx _]|[[-> _]|(l' & rest' & j' & st' & [= <- <-] & _ & Hj' & _)]];
             [discriminate|reflexivity|congruence].
Qed.

(** The loop on accepted lines of a stream that then fails: it throws the
    transport error, in the state the lines leave. *)
Lemma loop_accepts_then_fails fuel e (pre : list string) : forall st l0 st1,
  drained st (l0 :: pre) = Some st1 ->
  decodeDeferred_loop (S (length pre) + fuel) st
    {| lines := pre; ending := Errored e |}
    {| done := false; chunk := Some l0 |}
  = Throws e st1 {| lines := []; ending := Errored e |}.
Proof.
  induction pre as [|l1 pre IH]; intros st l0 st1 Hd;
    cbn -[JS.falsy dispatch decodeDeferred_loop] in Hd;
    destruct (JS.falsy (Some l0)) eqn:Hb; try discriminate;
    destruct (dispatch st l0) as [[[]|e'] st'] eqn:Hs; try discriminate.
  - injection Hd as <-.
    cbn -[JS.falsy dispatch]. rewrite Hb, Hs. reflexivity.
  - change (S (length (l1 :: pre)) + fuel)%nat with (S (S (length pre) + fuel)).
    cbn -[JS.falsy dispatch Nat.add]. rewrite Hb, Hs.
    apply (IH st' l1 st1 Hd).
Qed.

(** X4.  When the stream fails with a transport error after lines that were
    all accepted, the drain throws that error and [decode] takes the failure
    path: the placeholders of the registry are rejected with the transport
    error, and here the [done] of the result rejects with it too, through
    [reader.closed]. *)
Theorem transport_error_rejects_done fuel readable plugins v st reader e st' :
  decodeInitial (initial_state plugins) readable = (Normal (false, v), st, reader) ->
  ending readable = Errored e ->
  drained st (lines reader) = Some st' ->
  decode (length (lines reader) + fuel) readable plugins
  = DecodeReturns {| result_value := v;
                     result_done := Rejected e;
                     done_deferred := Rejected e;
                     final_state := reject_all e st';
                     final_reader := {| lines := []; ending := Errored e |} |}.
Proof.
  intros Hi Herr Hd.
  assert (Hend : ending reader = Errored e)
    by (rewrite (decodeInitial_ending _ _ _ _ _ Hi); exact Herr).
  destruct reader as [ls how]. cbn [lines ending] in *. subst how.
  assert (Hthrow : decodeDeferred (length ls + fuel) st {| lines := ls; ending := Errored e |}
                   = Throws e st' {| lines := []; ending := Errored e |}).
  { destruct ls as [|l0 pre].
    - injection Hd as <-. reflexivity.
    - unfold decodeDeferred. apply (loop_accepts_then_fails fuel e pre st l0 st' Hd). }
  rewrite (decode_failure_path _ _ _ _ _ _ _ _ _ Hi Hthrow). reflexivity.
Qed.

(** X5.  Whatever makes the drain throw, the handler of the failure path
    reaches exactly the placeholders of the registry that no line has
    resolved or rejected: each of them is rejected with the reason.  Every
    other object stays as it was (a settled placeholder keeps its
    settlement, and a placeholder that a resolution line locked to a promise
    stays locked to it and is not rejected, so that it goes on waiting for
    that promise); no object outside the registry is touched, and the
    decoder is left as it was. *)
Theorem failure_fans_out fuel readable plugins v st reader reason st' reader' :
  decodeInitial (initial_state plugins) readable = (Normal (false, v), st, reader) ->
  decodeDeferred fuel st reader = Throws reason st' reader' ->
  exists d,
    decode fuel readable plugins = DecodeReturns d /\
    result_value d = v /\
    done_deferred d = Rejected reason /\
    (forall id l, deferred (decoder st') !! id = Some l ->
                  heap st' !! l = Some Pending ->
                  heap (final_state d) !! l = Some (Rejected reason)) /\
    (forall l, heap st' !! l <> Some Pending ->
               heap (final_state d) !! l = heap st' !! l) /\
    (forall l, (forall id, deferred (decoder st') !! id <> Some l) ->
               heap (final_state d) !! l = heap st' !! l) /\
    decoder (final_state d) = decoder st'.
Proof.
  intros Hi Hd. eexists. split; [apply (decode_failure_path _ _ _ _ _ _ _ _ _ Hi Hd)|].
  cbn [result_value done_deferred final_state].
  destruct (reject_all_spec reason st') as (Hrej & Hkeep & Hout & _).
  split; [reflexivity|]. split; [reflexivity|].
  split; [exact Hrej|]. split; [exact Hkeep|]. split; [exact Hout|reflexivity].
Qed.

(** X6.  The switch looks the id up before it parses the payload: on a
    settlement line whose payload is no structured text it throws the lookup
    error when the id is unknown and a syntax error when it is known; the
    Unflattener is not called and the state does not change, so that the
    placeholder of a known id is still pending when the error is fanned
    out. *)
Theorem unparsable_payload st line :
  JS.char0 line = Some TYPE_PROMISE \/ JS.char0 line = Some TYPE_ERROR ->
  JSON_parse (JS.slice_from line (JS.indexOf ":"%char line + 1)) = None ->
  dispatch st line
  = (Throw match lookup_deferred (decoder st)
                   (Number (JS.slice line 1 (JS.indexOf ":"%char line))) with
           | None => not_found (Number (JS.slice line 1 (JS.indexOf ":"%char line)))
           | Some _ => SyntaxError
           end, st).
Proof.
  intros Hm Hj. unfold dispatch.
  destruct (decide (JS.char0 line = Some TYPE_PROMISE)) as [_|Hp].
  - destruct (lookup_deferred _ _); [rewrite Hj|]; reflexivity.
  - destruct (decide (JS.char0 line = Some TYPE_ERROR)) as [_|He].
    + destruct (lookup_deferred _ _); [rewrite Hj|]; reflexivity.
    + destruct Hm; contradiction.
Qed.

(** X7.  A settlement line for a registered id whose placeholder was not
    resolved or rejected before changes exactly that placeholder, and every
    other object and the decoder stay as hydration left them.  Under the
    rejection marker the placeholder is rejected with the hydrated value,
    whatever that value is.  Under the resolution marker (which is tested
    first) it is what [resolve] makes of the hydrated value: fulfilled with a
    value that is no thenable, and, for a value that is a promise, not
    fulfilled with it but locked to it, to settle as that promise does. *)
Theorem settlement_line_delivers st line l jsonLine v st' :
  JS.char0 line = Some TYPE_PROMISE \/ JS.char0 line = Some TYPE_ERROR ->
  lookup_deferred (decoder st) (Number (JS.slice line 1 (JS.indexOf ":"%char line))) = Some l ->
  JSON_parse (JS.slice_from line (JS.indexOf ":"%char line + 1)) = Some jsonLine ->
  unflatten st jsonLine = (Normal v, st') ->
  heap st' !! l = Some Pending ->
  exists st2,
    dispatch st line = (Normal tt, st2) /\
    heap st2 !! l
    = Some (if decide (JS.char0 line = Some TYPE_PROMISE)
            then match v with
                 | Foreign x =>
                     match resolve_kind l x with
                     | Fulfils => Fulfilled v
                     | Adopts => Follows v
                     | Fails e => Rejected (Foreign e)
                     end
                 | _ => Fulfilled v
                 end
            else Rejected v) /\
    (forall l', l' <> l -> heap st2 !! l' = heap st' !! l') /\
    decoder st2 = decoder st'.
Proof.
  intros Hm Hl Hj Hu Hp. unfold dispatch.
  destruct (decide (JS.char0 line = Some TYPE_PROMISE)) as [_|Hnp].
  - rewrite Hl, Hj, Hu. eexists. split; [reflexivity|].
    unfold resolve_at. cbn [heap decoder]. split; [|split; [|reflexivity]].
    + rewrite settle_lookup, Hp. destruct (decide (l = l)); [reflexivity|contradiction].
    + intros l' Hne. rewrite settle_lookup.
      destruct (decide (l = l')); [congruence|reflexivity].
  - destruct (decide (JS.char0 line = Some TYPE_ERROR)) as [_|Hne]; [|destruct Hm; contradiction].
    rewrite Hl, Hj, Hu. eexists. split; [reflexivity|].
    unfold reject_at. cbn [heap decoder]. split; [|split; [|reflexivity]].
    + rewrite settle_lookup, Hp. destruct (decide (l = l)); [reflexivity|contradiction].
    + intros l' Hne'. rewrite settle_lookup.
      destruct (decide (l = l')); [congruence|reflexivity].
Qed.

(** X8.  Whatever the line, the switch itself never rewrites a settled
    object and never edits the decoder: its result has the decoder of the
    state that it started from or that the one call of the Unflattener
    left, and every object that is settled in that state is the same
    afterwards. *)
Theorem dispatch_keeps_settlements st line :
  exists st1,
    (st1 = st \/ exists jsonLine, st1 = (unflatten st jsonLine).2) /\
    decoder (dispatch st line).2 = decoder st1 /\
    forall l p, heap st1 !! l = Some p -> settled p = true ->
                heap (dispatch st line).2 !! l = Some p.
Proof.
  unfold dispatch.
  destruct (decide _) as [_|_]; [|destruct (decide _) as [_|_]];
    try (destruct (lookup_deferred _ _) as [l0|]; [destruct (JSON_parse _) as [j|]|]);
    try (exists st; cbn [snd]; auto; fail).
  all: exists (unflatten st j).2; (split; [right; eauto|]);
    destruct (unflatten st j) as [[v|e] st'] eqn:Hu;
    unfold resolve_at, reject_at; cbn [snd heap decoder];
    (split; [reflexivity|]); auto;
    intros l p Hl Hp; rewrite settle_lookup;
    (destruct (decide (l0 = l)) as [->|]; [|exact Hl]);
    rewrite Hl; destruct p; [discriminate|reflexivity..].
Qed.

(** X18.  The drain stops at the first line on which the switch throws,
    whatever it throws: the lines behind it are never read, so that a
    placeholder which one of them would have settled is rejected with the
    error of the faulty line instead. *)
Theorem drain_stops_at_the_first_fault
    fuel readable plugins v st reader (pre : list string) st1 line rest e st2 :
  decodeInitial (initial_state plugins) readable = (Normal (false, v), st, reader) ->
  lines reader = pre ++ line :: rest ->
  drained st pre = Some st1 ->
  line <> EmptyString ->
  dispatch st1 line = (Throw e, st2) ->
  decode (length pre + S fuel) readable plugins
  = DecodeReturns
      {| result_value := v;
         result_done := reader_closed {| lines := rest; ending := ending readable |};
         done_deferred := Rejected e;
         final_state := reject_all e st2;
         final_reader := {| lines := rest; ending := ending readable |} |}.
Proof.
  intros Hi Hlines Hpre Hnb Hs.
  pose proof (decodeInitial_ending _ _ _ _ _ Hi) as Hend.
  destruct reader as [ls how]. cbn [lines ending] in *. subst ls how.
  assert (Hd : decodeDeferred (length pre + S fuel) st
                 {| lines := pre ++ line :: rest; ending := ending readable |}
               = Throws e st2 {| lines := rest; ending := ending readable |}).
  { rewrite (decodeDeferred_prefix _ _ _ _ _ _ _ Hpre).
    apply loop_throw; [|exact Hs].
    unfold JS.falsy. destruct (decide (line = EmptyString)); [contradiction|reflexivity]. }
  rewrite (decode_failure_path _ _ _ _ _ _ _ _ _ Hi Hd). reflexivity.
Qed.

End DecodeMore.

(** * The header of a settlement line *)

Section LineHeader.

Lemma clamp_forward len i : 0 <= i -> JS.clamp len i = Z.min i len.
Proof. intros Hi. unfold JS.clamp. destruct (Z.ltb_spec i 0); [lia|reflexivity]. Qed.

Lemma clamp_backward len i : i < 0 -> JS.clamp len i = Z.max (len + i) 0.
Proof. intros Hi. unfold JS.clamp. destruct (Z.ltb_spec i 0); [reflexivity|lia]. Qed.

Lemma substring_whole (s : string) : String.substring 0 (String.length s) s = s.
Proof. induction s as [|a s IH]; simpl; [reflexivity|]. rewrite IH. reflexivity. Qed.

Lemma substring_front (x y : string) :
  String.substring 0 (String.length x) (x +:+ y) = x.
Proof.
  induction x as [|a x IH]; simpl.
  - destruct y; reflexivity.
  - rewrite IH. reflexivity.
Qed.

Lemma substring_behind (x y : string) n :
  String.substring (String.length x) n (x +:+ y) = String.substring 0 n y.
Proof. induction x as [|a x IH]; simpl; [reflexivity|exact IH]. Qed.

Lemma substring_after (x : string) c (y : string) n :
  String.substring (String.length x + 1) n (x +:+ String c y)
  = String.substring 0 n y.
Proof. induction x as [|a x IH]; simpl; [reflexivity|exact IH]. Qed.

Lemma length_append (x y : string) :
  String.length (x +:+ y) = (String.length x + String.length y)%nat.
Proof. induction x as [|a x IH]; simpl; [reflexivity|]. rewrite IH. reflexivity. Qed.

Lemma indexOf_from_found c (s : string) : forall i,
  0 <= i -> JS.indexOf_from c s i = -1 \/ i <= JS.indexOf_from c s i.
Proof.
  induction s as [|a s IH]; intros i Hi; simpl; [auto|].
  destruct (Ascii.eqb c a); [right; lia|].
  destruct (IH (i + 1)) as [?|?]; [lia|auto|right; lia].
Qed.

Lemma indexOf_from_behind c (x y : string) : forall i,
  JS.indexOf_from c x 0 = -1 ->
  JS.indexOf_from c (x +:+ String c y) i = i + Z.of_nat (String.length x).
Proof.
  induction x as [|a x IH]; intros i Hx.
  - simpl. rewrite Ascii.eqb_refl. lia.
  - simpl in Hx |- *. destruct (Ascii.eqb c a); [lia|].
    rewrite IH by (apply (indexOf_from_absent c x 1 0); [lia|exact Hx]).
    lia.
Qed.

(** The first colon of a line splits it into the id field and the payload. *)
Lemma split_at_first_colon (m : ascii) (id payload : string) :
  m <> ":"%char ->
  JS.indexOf ":"%char id = -1 ->
  let line := String m (id +:+ String ":"%char payload) in
  JS.indexOf ":"%char line = 1 + JS.length id /\
  JS.slice line 1 (JS.indexOf ":"%char line) = id /\
  JS.slice_from line (JS.indexOf ":"%char line + 1) = payload.
Proof.
  intros Hm Hid line.
  assert (Hidx : JS.indexOf ":"%char line = 1 + JS.length id).
  { unfold JS.indexOf, line. cbn [JS.indexOf_from].
    destruct (Ascii.eqb_spec ":"%char m) as [Heq|_]; [congruence|].
    rewrite (indexOf_from_behind _ _ _ _ Hid). unfold JS.length. lia. }
  assert (Hlen : JS.length line
                 = 2 + JS.length id + Z.of_nat (String.length payload)).
  { unfold JS.length, line. cbn [String.length]. rewrite length_append.
    cbn [String.length]. lia. }
  split; [exact Hidx|]. rewrite Hidx. unfold JS.slice_from, JS.slice.
  rewrite Hlen. unfold JS.length in *.
  rewrite !clamp_forward by lia. split.
  - rewrite !Z.min_l by lia.
    replace (Z.to_nat (Z.max (1 + Z.of_nat (String.length id) - 1) 0))
      with (String.length id) by lia.
    change (Z.to_nat 1) with 1%nat. unfold line. cbn [String.substring].
    apply substring_front.
  - rewrite Z.min_l by lia. rewrite Z.min_r by lia.
    replace (Z.to_nat (1 + Z.of_nat (String.length id) + 1))
      with (S (String.length id + 1)) by lia.
    replace (Z.to_nat (Z.max _ 0)) with (String.length payload) by lia.
    unfold line. cbn [String.substring].
    rewrite substring_after. apply substring_whole.
Qed.

(** X9.  The switch recovers the two fields of a well-formed settlement line:
    for a line made of a marker other than the colon, an id field without a
    colon, a colon and a payload, the text handed to [Number] is the id
    field and the text handed to [JSON.parse] is the payload, whatever
    colons the payload holds. *)
Theorem header_fields_are_recovered (m : ascii) (id payload : string) :
  m <> ":"%char ->
  JS.indexOf ":"%char id = -1 ->
  let line := String m (id +:+ String ":"%char payload) in
  JS.indexOf ":"%char line = 1 + JS.length id /\
  JS.slice line 1 (JS.indexOf ":"%char line) = id /\
  JS.slice_from line (JS.indexOf ":"%char line + 1) = payload.
Proof. exact (split_at_first_colon m id payload). Qed.

(** X10.  On a settlement line without a colon [indexOf] is [-1]: the text
    handed to [JSON.parse] is then the whole line, marker included, and the
    text handed to [Number] is the line without its first and its last
    character. *)
Theorem header_without_colon (line : string) :
  JS.indexOf ":"%char line = -1 ->
  JS.slice_from line (JS.indexOf ":"%char line + 1) = line /\
  JS.slice line 1 (JS.indexOf ":"%char line)
  = String.substring 1 (String.length line - 2) line.
Proof.
  intros ->. unfold JS.slice_from, JS.slice, JS.length.
  change (-1 + 1) with 0.
  rewrite !clamp_forward by lia. rewrite clamp_backward by lia. split.
  - rewrite Z.min_l, Z.min_r by lia.
    replace (Z.to_nat (Z.max _ 0)) with (String.length line) by lia.
    apply substring_whole.
  - destruct line as [|a [|b line]]; [reflexivity..|].
    cbn [String.length].
    rewrite Z.min_l by lia. rewrite (Z.max_l _ 0) by lia.
    change (Z.to_nat 1) with 1%nat. f_equal. lia.
Qed.

End LineHeader.

(** * Further properties of the encode side *)

Section EncodeMore.
Context `{Flattener}.

Implicit Types (st : EncodeState) (enc : ThisEncode) (fs : list frame).

Lemma on_resolved_appends d v st :
  exists p, enqueued (on_resolved d v st)
            = enqueued st ++ [Settlement TYPE_PROMISE d p].
Proof.
  unfold on_resolved.
  destruct (flatten (encoder st) v) as [[n|id0] enc];
    [destruct (n <? 0)|]; eexists; reflexivity.
Qed.

Lemma on_rejected_appends d r st :
  exists p, enqueued (on_rejected d r st)
            = enqueued st ++ [Settlement TYPE_ERROR d p].
Proof.
  unfold on_rejected.
  destruct (flatten (encoder st) (normalize r)) as [[n|id0] enc];
    [destruct (n <? 0)|]; eexists; reflexivity.
Qed.

Lemma settle_entry_prefix d p st :
  enqueued st `prefix_of` enqueued (settle_entry d p st).
Proof.
  destruct p as [|v|r|t]; simpl; [reflexivity| | |reflexivity].
  - destruct (on_resolved_appends d v st) as [q ->]. eexists; reflexivity.
  - destruct (on_rejected_appends d r st) as [q ->]. eexists; reflexivity.
Qed.

Lemma scan_prefix st : enqueued st `prefix_of` enqueued (scan st).
Proof.
  unfold scan. generalize (signal (encoder st)) as sig.
  generalize (registry_keys (encoder st)) as ks. intros ks. revert st.
  induction ks as [|d ks IH]; intros st sig; simpl; [reflexivity|].
  etransitivity; [apply (settle_entry_prefix d (raceSignal Pending sig) st)|apply IH].
Qed.

(** X11.  The stream is append-only: whatever the events, the chunks that
    were enqueued stay enqueued, in their order, in front of the later
    ones. *)
Theorem enqueued_frames_stay fuel : forall st schedule,
  enqueued st `prefix_of` enqueued (settlement_loop fuel st schedule).2.
Proof.
  induction fuel as [|fuel IH]; intros st schedule; simpl; [reflexivity|].
  destruct (decide _); [reflexivity|].
  destruct (is_aborted st).
  - etransitivity; [apply scan_prefix|apply IH].
  - destruct schedule as [|[d outcome|why] schedule]; [reflexivity|..].
    + destruct (enc_deferred (encoder st) !! d); [|apply IH].
      etransitivity; [apply settle_entry_prefix|apply IH].
    + apply (IH (fire why st)).
Qed.

Lemma grows_refl st : grows st st.
Proof. repeat split; reflexivity || lia. Qed.

Lemma grows_trans st1 st2 st3 : grows st1 st2 -> grows st2 st3 -> grows st1 st3.
Proof.
  intros (Ht & Hi & Hl) (Ht' & Hi' & Hl'). repeat split; [|lia|lia].
  etransitivity; eassumption.
Qed.

Lemma settle_step_grows (flattens : flatten_contract) st marker d v :
  in_step st ->
  grows st
    (match flatten (encoder st) v with
     | (RefArray id0, enc) =>
         enqueue (Settlement marker d (Alias id0)) (bump_index enc) (lastSentIndex st + 1) st
     | (RefNumber id, enc) =>
         if id <? 0 then enqueue (Settlement marker d (Sentinel id)) enc (lastSentIndex st) st
         else enqueue (Settlement marker d
                         (Fragments (slice_from (stringified enc) (lastSentIndex st + 1))))
                      enc (Z.of_nat (length (stringified enc)) - 1) st
     end).
Proof.
  intros [Hlen Hmark Hsent Hcur].
  pose proof (flattens (encoder st) v Hlen) as Hc.
  destruct (flatten (encoder st) v) as [[n|id0] enc].
  - destruct (n <? 0).
    + subst enc. repeat split; simpl; reflexivity || lia.
    + destruct Hc as (news & Htab & Hidx). repeat split; simpl.
      * rewrite Htab. eexists; reflexivity.
      * lia.
      * rewrite Htab, !length_app, length_replicate, length_fmap. lia.
  - subst enc. repeat split; simpl; reflexivity || lia.
Qed.

Lemma settle_entry_grows (flattens : flatten_contract) st d p :
  in_step st -> grows st (settle_entry d p st).
Proof.
  intros Hst. destruct p as [|v|r|t]; simpl; [apply grows_refl| | |apply grows_refl].
  - apply (grows_trans _ (on_resolved d v st)); [|repeat split; reflexivity].
    apply (settle_step_grows flattens st TYPE_PROMISE d v Hst).
  - apply (grows_trans _ (on_rejected d r st)); [|repeat split; reflexivity].
    apply (settle_step_grows flattens st TYPE_ERROR d (normalize r) Hst).
Qed.

Lemma scan_grows (flattens : flatten_contract) st : in_step st -> grows st (scan st).
Proof.
  unfold scan. generalize (signal (encoder st)) as sig.
  generalize (registry_keys (encoder st)) as ks. intros ks. revert st.
  induction ks as [|d ks IH]; intros st sig Hst; simpl; [apply grows_refl|].
  eapply grows_trans;
    [apply (settle_entry_grows flattens st d (raceSignal Pending sig) Hst)|].
  apply IH. apply settle_entry_in_step; assumption.
Qed.

(** X13.  With a Flattener that keeps its contract the fragment table is
    append-only over a whole run: from a stream that is in step, the table
    at any later time has the earlier table as its front, so that an entry
    once written is never changed or dropped, and neither the cursor nor the
    high-water mark ever moves back. *)
Theorem table_only_grows (flattens : flatten_contract) fuel : forall st schedule,
  in_step st -> grows st (settlement_loop fuel st schedule).2.
Proof.
  induction fuel as [|fuel IH]; intros st schedule Hst; simpl; [apply grows_refl|].
  destruct (decide _); [apply grows_refl|].
  destruct (is_aborted st).
  - eapply grows_trans; [apply (scan_grows flattens st Hst)|].
    apply IH, scan_in_step; assumption.
  - destruct schedule as [|[d outcome|why] schedule]; [apply grows_refl|..].
    + destruct (enc_deferred (encoder st) !! d); [|apply IH, Hst].
      eapply grows_trans;
        [apply (settle_entry_grows flattens st d
                  (raceSignal outcome (signal (encoder st))) Hst)|].
      apply IH, settle_entry_in_step; assumption.
    + eapply grows_trans; [|apply IH, fire_in_step, Hst].
      repeat split; reflexivity.
Qed.

Lemma scan_aborted st s :
  signal (encoder st) = Some s -> aborted s = true ->
  scan st = foldl (fun st d => settle_entry d (Rejected (abort_reason s)) st)
                  st (registry_keys (encoder st)).
Proof. intros Hs Ha. unfold scan. rewrite Hs. simpl. rewrite Ha. reflexivity. Qed.

(** A scan under an aborted signal whose error registers nothing empties the
    registry, with one rejection frame for each of its ids. *)
Lemma scan_aborted_empties st s :
  signal (encoder st) = Some s -> aborted s = true ->
  registers_nothing (normalize (abort_reason s)) ->
  enc_deferred (encoder (scan st)) = ∅ /\
  exists fs, enqueued (scan st) = enqueued st ++ fs /\
             Forall2 (is_rejection_for (abort_reason s)) (registry_keys (encoder st)) fs.
Proof.
  intros Hs Ha Hq. rewrite (scan_aborted st s Hs Ha).
  destruct (rejection_batch (abort_reason s) (registry_keys (encoder st)) Hq st)
    as (Hreg & _ & fs & Hfs & Hall).
  split; [|exists fs; split; assumption].
  rewrite Hreg. apply foldl_delete_all. intros i. apply registry_keys_elem.
Qed.

(** X14.  With a signal that is aborted before the loop starts, no event is
    waited for: when the error made of its reason registers no promise, the
    loop rejects every registered promise at once, one rejection frame for
    each id in ascending order, and closes the stream, whether or not those
    promises ever settle. *)
Theorem aborted_signal_needs_no_event fuel st s schedule :
  signal (encoder st) = Some s ->
  aborted s = true ->
  registers_nothing (normalize (abort_reason s)) ->
  exists fs st',
    settlement_loop (2 + fuel) st schedule = (StreamClosed, st') /\
    enqueued st' = enqueued st ++ fs /\
    length fs = size (enc_deferred (encoder st)) /\
    Forall2 (is_rejection_for (abort_reason s)) (registry_keys (encoder st)) fs.
Proof.
  intros Hs Ha Hq.
  destruct (decide (enc_deferred (encoder st) = ∅)) as [Hempty|Hsome].
  - exists [], st. change (2 + fuel)%nat with (S (S fuel)).
    rewrite loop_closed by exact Hempty. rewrite app_nil_r.
    assert (Hk : registry_keys (encoder st) = []).
    { apply length_zero_iff_nil. rewrite registry_keys_length, Hempty. reflexivity. }
    rewrite Hk, Hempty. repeat split. constructor.
  - destruct (scan_aborted_empties st s Hs Ha Hq) as (Hreg & fs & Hfs & Hall).
    exists fs, (scan st). change (2 + fuel)%nat with (S (S fuel)).
    rewrite loop_aborted by (auto; unfold is_aborted; rewrite Hs; exact Ha).
    rewrite loop_closed by exact Hreg.
    split; [reflexivity|]. split; [exact Hfs|]. split; [|exact Hall].
    rewrite <- (Forall2_length _ _ _ Hall). apply registry_keys_length.
Qed.

Lemma raceSignal_live outcome st :
  is_aborted st = false -> raceSignal outcome (signal (encoder st)) = outcome.
Proof.
  unfold is_aborted, raceSignal. destruct (signal (encoder st)) as [s|]; [|reflexivity].
  intros ->. reflexivity.
Qed.

(** One settlement whose value registers nothing: one frame that answers
    the event, and a registry that only loses the entry. *)
Lemma settlement_step d outcome st :
  quiet (Settles d outcome) ->
  let st' := settle_entry d outcome st in
  enc_deferred (encoder st') = delete d (enc_deferred (encoder st)) /\
  signal (encoder st') = signal (encoder st) /\
  exists f, enqueued st' = enqueued st ++ [f] /\ answers (Settles d outcome) f.
Proof.
  destruct outcome as [|v|r|t]; simpl; [contradiction| | |contradiction]; intros Hq.
  - destruct (on_resolved_appends d v st) as [p Hp].
    assert (Hkeep : enc_deferred (encoder (on_resolved d v st)) = enc_deferred (encoder st)
                    /\ signal (encoder (on_resolved d v st)) = signal (encoder st)).
    { unfold on_resolved. destruct (Hq (encoder st)) as [Hreg Hsig].
      destruct (flatten (encoder st) v) as [[n|id0] enc];
        [destruct (n <? 0)|]; simpl in *; auto. }
    destruct Hkeep as [-> ->]. split; [reflexivity|]. split; [reflexivity|].
    eexists. split; [exact Hp|]. exists p. reflexivity.
  - destruct (rejection_step d r st Hq) as (Hreg & Hsig & f & Hf & [Hm _]).
    simpl in Hreg, Hsig, Hf. split; [exact Hreg|]. split; [exact Hsig|].
    exists f. split; assumption.
Qed.

(** X15.  Settlement frames come in completion order.  While the signal has
    not fired, a schedule that settles registered promises, each once, with
    values that register no further promise, yields one frame for each
    event, in the order of the events, with the id of the event and the
    marker of its outcome; the registry loses exactly those ids, and the
    stream is closed when that empties it and left open otherwise. *)
Theorem frames_follow_completion_order fuel (schedule : list event) : forall st,
  is_aborted st = false ->
  Forall quiet schedule ->
  NoDup (settled_ids schedule) ->
  (forall d, d ∈ settled_ids schedule -> is_Some (enc_deferred (encoder st) !! d)) ->
  exists fs st',
    settlement_loop (S (length schedule) + fuel) st schedule
    = (if decide (enc_deferred (encoder st') = ∅) then StreamClosed else StillOpen,
       st') /\
    enqueued st' = enqueued st ++ fs /\
    Forall2 answers schedule fs /\
    enc_deferred (encoder st')
    = foldl (fun m d => delete d m) (enc_deferred (encoder st)) (settled_ids schedule).
Proof.
  induction schedule as [|ev schedule IH]; intros st Hlive Hquiet Hnodup Hin.
  - exists [], st. rewrite app_nil_r. split; [|repeat split; constructor].
    simpl. destruct (decide _); [reflexivity|]. rewrite Hlive. reflexivity.
  - apply Forall_cons in Hquiet. destruct Hquiet as [Hq Hquiet].
    destruct ev as [d outcome|why]; [|contradiction].
    cbn [settled_ids omap] in Hnodup, Hin |- *.
    fold (settled_ids schedule) in Hnodup, Hin |- *.
    apply NoDup_cons in Hnodup. destruct Hnodup as [Hfresh Hnodup].
    destruct (Hin d) as [p Hd]; [left|].
    destruct (settlement_step d outcome st Hq) as (Hreg & Hsig & f & Hf & Hans).
    cbn zeta in Hreg, Hsig, Hf.
    destruct (IH (settle_entry d outcome st)) as (fs & st' & Hloop & Hfs & Hall & Hfinal).
    + unfold is_aborted in *. rewrite Hsig. exact Hlive.
    + exact Hquiet.
    + exact Hnodup.
    + intros d' Hd'. rewrite Hreg, lookup_delete_ne; [apply Hin; right; exact Hd'|].
      intros ->. contradiction.
    + exists (f :: fs), st'. split; [|split; [|split]].
      * change (S (length (Settles d outcome :: schedule)) + fuel)%nat
          with (S (S (length schedule) + fuel)).
        cbn [settlement_loop].
        destruct (decide (enc_deferred (encoder st) = ∅)) as [He|_];
          [rewrite He, lookup_empty in Hd; discriminate|].
        rewrite Hlive, Hd, (raceSignal_live outcome st Hlive). exact Hloop.
      * rewrite Hfs, Hf, <- app_assoc. reflexivity.
      * constructor; assumption.
      * rewrite Hfinal, Hreg. reflexivity.
Qed.

(** X16.  The value that the rejection handler flattens is always an error
    object, and normalizing is idempotent; so a reason that is no error
    object (a string, a number, [undefined]) is lost: its frame is the frame
    of the generic error. *)
Theorem non_error_reasons_are_lost d r st :
  is_error_object (normalize r) = true /\
  on_rejected d (normalize r) st = on_rejected d r st /\
  (is_error_object r = false ->
   on_rejected d r st = on_rejected d (Error "An unknown error occurred") st).
Proof.
  assert (Hn : is_error_object (normalize r) = true).
  { unfold normalize. destruct (is_error_object r) eqn:Hr; [exact Hr|reflexivity]. }
  split; [exact Hn|]. split.
  - unfold on_rejected. unfold normalize at 1. rewrite Hn. reflexivity.
  - intros Hr. unfold on_rejected, normalize. rewrite Hr. reflexivity.
Qed.

Lemma loop_round fuel st schedule :
  settlement_loop (S fuel) st schedule
  = if decide (enc_deferred (encoder st) = ∅) then (StreamClosed, st)
    else if is_aborted st then settlement_loop fuel (scan st) schedule
    else
      match schedule with
      | [] => (StillOpen, st)
      | Settles d outcome :: schedule' =>
          match enc_deferred (encoder st) !! d with
          | Some _ =>
              settlement_loop fuel
                (settle_entry d (raceSignal outcome (signal (encoder st))) st)
                schedule'
          | None => settlement_loop fuel st schedule'
          end
      | Aborts why :: schedule' => settlement_loop fuel (fire why st) schedule'
      end.
Proof. reflexivity. Qed.

(** A run that has ended is not changed by one round more. *)
Lemma loop_fuel_step fuel : forall st schedule,
  (settlement_loop fuel st schedule).1 <> NoFuel ->
  settlement_loop (S fuel) st schedule = settlement_loop fuel st schedule.
Proof.
  induction fuel as [|fuel IH]; intros st schedule Hend; [destruct Hend; reflexivity|].
  rewrite (loop_round (S fuel) st schedule).
  rewrite (loop_round fuel st schedule) in Hend |- *.
  destruct (decide (enc_deferred (encoder st) = ∅)); [reflexivity|].
  destruct (is_aborted st); [apply IH, Hend|].
  destruct schedule as [|[d outcome|why] schedule]; [reflexivity|..].
  - destruct (enc_deferred (encoder st) !! d); apply IH, Hend.
  - apply IH, Hend.
Qed.

Lemma loop_fuel_more fuel st schedule (more : nat) :
  (settlement_loop fuel st schedule).1 <> NoFuel ->
  settlement_loop (more + fuel) st schedule = settlement_loop fuel st schedule.
Proof.
  intros Hend. induction more as [|more IH]; [reflexivity|].
  change (S more + fuel)%nat with (S (more + fuel)).
  rewrite loop_fuel_step; rewrite IH; [reflexivity|exact Hend].
Qed.

(** X17.  The loop makes progress: when the error made of an abort reason
    never registers a promise, every round of the loop either takes an event
    or ends the run, so that a run over a schedule has ended after two
    rounds more than there are events, and no further round changes its
    outcome or its stream. *)
Theorem loop_settles_within_the_schedule (schedule : list event) : forall st fuel,
  (forall s, registers_nothing (normalize (abort_reason s))) ->
  (length schedule + 2 <= fuel)%nat ->
  (settlement_loop fuel st schedule).1 <> NoFuel /\
  forall fuel', (fuel <= fuel')%nat ->
    settlement_loop fuel' st schedule = settlement_loop fuel st schedule.
Proof.
  intros st fuel Hq Hfuel.
  assert (Hend : (settlement_loop fuel st schedule).1 <> NoFuel).
  { revert st fuel Hfuel.
    assert (Hab : forall st fuel schedule,
               (1 <= fuel)%nat -> enc_deferred (encoder st) <> ∅ -> is_aborted st = true ->
               (settlement_loop (S fuel) st schedule).1 = StreamClosed).
    { intros st fuel sched Hfuel Hne Ha.
      rewrite loop_aborted by assumption.
      unfold is_aborted in Ha. destruct (signal (encoder st)) as [s|] eqn:Hs; [|discriminate].
      destruct (scan_aborted_empties st s Hs Ha (Hq s)) as [Hreg _].
      destruct fuel as [|fuel]; [lia|]. rewrite loop_closed by exact Hreg. reflexivity. }
    induction schedule as [|ev schedule IH]; intros st fuel Hfuel;
      (destruct fuel as [|fuel]; [simpl in Hfuel; lia|]).
    - destruct (decide (enc_deferred (encoder st) = ∅)) as [He|Hne];
        [rewrite loop_closed by exact He; discriminate|].
      destruct (is_aborted st) eqn:Ha;
        [rewrite Hab; [discriminate|simpl in Hfuel; lia|assumption..]|].
      simpl. destruct (decide _); [contradiction|]. rewrite Ha. discriminate.
    - destruct (decide (enc_deferred (encoder st) = ∅)) as [He|Hne];
        [rewrite loop_closed by exact He; discriminate|].
      destruct (is_aborted st) eqn:Ha;
        [rewrite Hab; [discriminate|simpl in Hfuel; lia|assumption..]|].
      cbn [settlement_loop]. destruct (decide _); [contradiction|]. rewrite Ha.
      simpl in Hfuel.
      destruct ev as [d outcome|why]; [destruct (enc_deferred (encoder st) !! d)|];
        apply IH; lia. }
  split; [exact Hend|]. intros fuel' Hle.
  replace fuel' with ((fuel' - fuel) + fuel)%nat by lia.
  apply loop_fuel_more, Hend.
Qed.

Lemma settle_entry_framed d p st :
  well_framed (enqueued st) -> enqueued st <> [] ->
  well_framed (enqueued (settle_entry d p st)) /\ enqueued (settle_entry d p st) <> [].
Proof.
  intros Hw Hne. destruct p as [|v|r|t]; simpl; [auto| | |auto].
  - destruct (on_resolved_appends d v st) as [q ->].
    destruct (enqueued st) as [|f fs]; [contradiction|]. destruct Hw as [Hf Hfs].
    split; [|discriminate]. split; [exact Hf|].
    apply Forall_app. split; [exact Hfs|]. repeat constructor.
  - destruct (on_rejected_appends d r st) as [q ->].
    destruct (enqueued st) as [|f fs]; [contradiction|]. destruct Hw as [Hf Hfs].
    split; [|discriminate]. split; [exact Hf|].
    apply Forall_app. split; [exact Hfs|]. repeat constructor.
Qed.

Lemma scan_framed st :
  well_framed (enqueued st) -> enqueued st <> [] ->
  well_framed (enqueued (scan st)) /\ enqueued (scan st) <> [].
Proof.
  unfold scan. generalize (signal (encoder st)) as sig.
  generalize (registry_keys (encoder st)) as ks. intros ks. revert st.
  induction ks as [|d ks IH]; intros st sig Hw Hne; simpl; [auto|].
  destruct (settle_entry_framed d (raceSignal Pending sig) st Hw Hne) as [Hw' Hne'].
  apply IH; assumption.
Qed.

Lemma loop_framed fuel : forall st schedule,
  well_framed (enqueued st) -> enqueued st <> [] ->
  well_framed (enqueued (settlement_loop fuel st schedule).2).
Proof.
  induction fuel as [|fuel IH]; intros st schedule Hw Hne; simpl; [exact Hw|].
  destruct (decide _); [exact Hw|].
  destruct (is_aborted st).
  - destruct (scan_framed st Hw Hne). apply IH; assumption.
  - destruct schedule as [|[d outcome|why] schedule]; [exact Hw|..].
    + destruct (enc_deferred (encoder st) !! d); [|apply IH; assumption].
      destruct (settle_entry_framed d (raceSignal outcome (signal (encoder st))) st Hw Hne).
      apply IH; assumption.
    + apply (IH (fire why st)); assumption.
Qed.

(** X19.  The shape of every stream that [encode] builds: it is empty (when
    the first step fails), or it starts with the one initial chunk and
    carries settlement chunks only behind it. *)
Theorem stream_is_well_framed fuel input plugins signal schedule :
  well_framed (enqueued (encode fuel input plugins signal schedule).2).
Proof.
  unfold encode.
  destruct (start_initial input (initial_stream plugins signal)) as [st|e] eqn:Hs;
    [|exact I].
  apply loop_framed.
  - unfold start_initial in Hs.
    destruct (flatten _ input) as [[n|id0] enc]; [|discriminate].
    destruct (n <? 0); injection Hs as <-; simpl; auto.
  - unfold start_initial in Hs.
    destruct (flatten _ input) as [[n|id0] enc]; [|discriminate].
    destruct (n <? 0); injection Hs as <-; discriminate.
Qed.

End EncodeMore.

(** * From the frames of [encode] to the switch of [decodeDeferred] *)

Section FrameToLine.
Context `{Unflattener}.

Lemma append_assoc (x y z : string) : (x +:+ y) +:+ z = x +:+ (y +:+ z).
Proof.
  induction x as [|a x IH]; [reflexivity|].
  change (String a ((x +:+ y) +:+ z) = String a (x +:+ (y +:+ z))).
  rewrite IH. reflexivity.
Qed.

(** The line of a settlement frame: the text of its chunk without the final
    newline. *)
Lemma render_settlement (m : ascii) (d : Z) (p : payload) :
  render (Settlement (String m EmptyString) d p)
  = String m (pretty d +:+ String ":"%char (render_payload p)) +:+ newline.
Proof.
  unfold render.
  change (String m (pretty d +:+ String ":"%char (render_payload p +:+ newline))
          = String m ((pretty d +:+ String ":"%char (render_payload p)) +:+ newline)).
  rewrite append_assoc. reflexivity.
Qed.

(** X20.  The header that [encode] writes is the header that the switch of
    [decodeDeferred] reads.  For a settlement frame with a one-character
    marker other than the colon, the line of the chunk (its text without
    the final newline) starts with the marker, the text that the switch
    hands to [Number] is the decimal text of the id, and the text it hands
    to [JSON.parse] is the text of the payload. *)
Theorem written_header_is_read_back (m : ascii) (d : Z) (p : payload) :
  m <> ":"%char ->
  let line := String m (pretty d +:+ String ":"%char (render_payload p)) in
  render (Settlement (String m EmptyString) d p) = line +:+ newline /\
  JS.char0 line = Some (String m EmptyString) /\
  JS.slice line 1 (JS.indexOf ":"%char line) = pretty d /\
  JS.slice_from line (JS.indexOf ":"%char line + 1) = render_payload p.
Proof.
  intros Hm line. split; [apply render_settlement|]. split; [reflexivity|].
  exact (proj2 (split_at_first_colon m (pretty d) (render_payload p) Hm
                  (pretty_Z_no_colon d))).
Qed.

(** X21.  What the switch does with a settlement frame of [encode].  When
    the two markers are distinct single characters other than the colon and
    [Number] reads the decimal text of the id back, the line of the frame
    for id [d] is dispatched on the placeholder registered under the key of
    [d], its decimal text: a frame for an unregistered id throws the lookup
    error, and otherwise the payload text goes through [JSON.parse] and
    hydration, and [resolve] is called on the placeholder for a resolution
    frame and [reject] for a rejection frame. *)
Theorem written_frame_is_dispatched (st : DecodeState) (mp me : ascii)
  (rejected : bool) (d : Z) (p : payload) :
  TYPE_PROMISE = String mp EmptyString ->
  TYPE_ERROR = String me EmptyString ->
  mp <> ":"%char -> me <> ":"%char -> mp <> me ->
  Number (pretty d) = JS.Int d ->
  exists line,
    render (Settlement (if rejected then TYPE_ERROR else TYPE_PROMISE) d p)
    = line +:+ newline /\
    dispatch st line
    = match deferred (decoder st) !! pretty d with
      | None => (Throw (not_found (JS.Int d)), st)
      | Some l =>
          match JSON_parse (render_payload p) with
          | None => (Throw SyntaxError, st)
          | Some jsonLine =>
              match unflatten st jsonLine with
              | (Throw e, st') => (Throw e, st')
              | (Normal v, st') =>
                  (Normal tt,
                   (if rejected then reject_at l v st' else resolve_at l v st'))
              end
          end
      end.
Proof.
  intros Hp He Hmp Hme Hne Hnum.
  set (m := if rejected then me else mp).
  assert (Hm : m <> ":"%char) by (unfold m; destruct rejected; assumption).
  exists (String m (pretty d +:+ String ":"%char (render_payload p))).
  split.
  { rewrite <- render_settlement. unfold m. destruct rejected; congruence. }
  destruct (split_at_first_colon m (pretty d) (render_payload p) Hm
              (pretty_Z_no_colon d)) as (_ & Hid & Hpay).
  cbv zeta in Hid, Hpay.
  unfold dispatch, lookup_deferred. rewrite Hid, Hpay, Hnum, Hp, He.
  cbn [number_to_string JS.char0].
  unfold m. destruct rejected.
  - destruct (decide (Some (String me EmptyString) = Some (String mp EmptyString)))
      as [Heq|_]; [congruence|].
    destruct (decide (Some (String me EmptyString) = Some (String me EmptyString)))
      as [_|Hn]; [|congruence].
    reflexivity.
  - destruct (decide (Some (String mp EmptyString) = Some (String mp EmptyString)))
      as [_|Hn]; [|congruence].
    reflexivity.
Qed.

End FrameToLine.

Section OneLine.
Context `{Flattener}.

(** X22.  An input whose flattening registers no promise is encoded as one
    line, and the stream closes after it whatever the schedule is and
    whether or not the signal is aborted: the line carries the bare
    sentinel of an inline value and the whole table otherwise. *)
Theorem promise_free_input_is_one_line fuel input plugins signal schedule n enc :
  flatten (initial_encoder plugins signal) input = (RefNumber n, enc) ->
  enc_deferred enc = ∅ ->
  exists st,
    encode (S fuel) input plugins signal schedule = (StreamClosed, st) /\
    enqueued st
    = [Initial (if n <? 0 then Sentinel n else Fragments (stringified enc))] /\
    encoder st = enc.
Proof.
  intros Hf Hreg. unfold encode, start_initial.
  change (encoder (initial_stream plugins signal)) with (initial_encoder plugins signal).
  rewrite Hf.
  destruct (n <? 0); eexists;
    (split;
     [cbn [settlement_loop enqueue encoder];
      destruct (decide (enc_deferred enc = ∅)) as [_|Hn];
      [reflexivity|contradiction]
     |split; reflexivity]).
Qed.

End OneLine.

(** * The further properties on the sample wire format *)

Section MoreExamples.
Import Sample.
#[local] Existing Instance host.
#[local] Existing Instance unflattener.
#[local] Existing Instance flattener.

Lemma drain_ends_witness :
  Forall (fun l => l <> EmptyString) ["P0:[1]"; "P0:[2]"] /\
  exists st' reader',
    decodeDeferred 3 registered (closing ["P0:[1]"; "P0:[2]"]) = Returns st' reader' \/
    exists e, decodeDeferred 3 registered (closing ["P0:[1]"; "P0:[2]"])
              = Throws e st' reader'.
Proof.
  assert (Hall : Forall (fun l => l <> EmptyString) ["P0:[1]"; "P0:[2]"])
    by (repeat constructor; discriminate).
  split; [exact Hall|].
  exact (drain_without_blank_lines_ends (H:=host) (H0:=unflattener) registered
           (closing ["P0:[1]"; "P0:[2]"]) Hall).
Defined.

Lemma reads_one_line_witness :
  decodeInitial (initial_state None) (closing [promise_line; "P0:[1]"])
  = (Normal (false, @Foreign host (PromiseObj 0)), registered, closing ["P0:[1]"]) /\
  false = false /\
  exists l j,
    [promise_line; "P0:[1]"] = l :: ["P0:[1]"] /\
    Closed = Closed /\
    l <> EmptyString /\
    parse_json l = Some j /\
    sample_unflatten (initial_state None) j
    = (Normal (@Foreign host (PromiseObj 0)), registered).
Proof.
  split; [reflexivity|].
  exact (decodeInitial_reads_one_line (H:=host) (H0:=unflattener) (initial_state None)
           (closing [promise_line; "P0:[1]"]) false (@Foreign host (PromiseObj 0))
           registered (closing ["P0:[1]"]) eq_refl).
Defined.

Lemma transport_error_witness :
  decodeInitial (initial_state None)
    {| lines := [promise_line]; ending := Errored (@Foreign host (Str "reset")) |}
  = (Normal (false, @Foreign host (PromiseObj 0)), registered,
     {| lines := []; ending := Errored (@Foreign host (Str "reset")) |}) /\
  drained registered [] = Some registered /\
  decode 0 {| lines := [promise_line]; ending := Errored (@Foreign host (Str "reset")) |} None
  = DecodeReturns
      {| result_value := @Foreign host (PromiseObj 0);
         result_done := Rejected (@Foreign host (Str "reset"));
         done_deferred := Rejected (@Foreign host (Str "reset"));
         final_state := reject_all (@Foreign host (Str "reset")) registered;
         final_reader := {| lines := []; ending := Errored (@Foreign host (Str "reset")) |} |} /\
  heap (reject_all (@Foreign host (Str "reset")) registered) !! 0%nat
  = Some (Rejected (@Foreign host (Str "reset"))).
Proof.
  split; [reflexivity|]. split; [reflexivity|]. split; [|reflexivity].
  exact (transport_error_rejects_done (H:=host) (H0:=unflattener) 0
           {| lines := [promise_line]; ending := Errored (@Foreign host (Str "reset")) |}
           None (@Foreign host (PromiseObj 0)) registered
           {| lines := []; ending := Errored (@Foreign host (Str "reset")) |}
           (@Foreign host (Str "reset")) registered eq_refl eq_refl eq_refl).
Defined.

(** After two such lines placeholder [0] is locked to the promise of the
    first one, which the second line has displaced from the registry; the
    failure path rejects the placeholder of the registry that is still
    unresolved, and leaves the locked one as it is. *)
Lemma failure_fans_out_witness :
  exists st' d,
    decodeDeferred 3 registered (closing [adopting_line; adopting_line; "X"])
    = Throws SyntaxError st' (closing []) /\
    decode 3 (closing [promise_line; adopting_line; adopting_line; "X"]) None
    = DecodeReturns d /\
    done_deferred d = Rejected SyntaxError /\
    deferred (decoder st') !! "7" = Some 2%nat /\
    heap st' !! 2%nat = Some Pending /\
    heap (final_state d) !! 2%nat = Some (Rejected SyntaxError) /\
    heap st' !! 0%nat = Some (Follows (@Foreign host (PromiseObj 1))) /\
    heap (final_state d) !! 0%nat = Some (Follows (@Foreign host (PromiseObj 1))).
Proof.
  eexists.
  destruct (failure_fans_out (H:=host) (H0:=unflattener) 3
              (closing [promise_line; adopting_line; adopting_line; "X"]) None
              (@Foreign host (PromiseObj 0))
              registered (closing [adopting_line; adopting_line; "X"])
              SyntaxError _ (closing [])
              eq_refl eq_refl)
    as (d & Hd & _ & Hdone & Hrej & Hkeep & _).
  exists d. split; [reflexivity|]. split; [exact Hd|]. split; [exact Hdone|].
  split; [reflexivity|]. split; [reflexivity|].
  split; [exact (Hrej "7" 2%nat eq_refl eq_refl)|].
  split; [reflexivity|].
  rewrite (Hkeep 0%nat); [reflexivity|discriminate].
Defined.

(** The same run in full: the promise that placeholder [0] follows sits at
    location [1], is in the registry no more, and is still pending after the
    failure path, so that whoever awaits placeholder [0] goes on waiting. *)
Example locked_placeholder_keeps_waiting :
  exists d,
    decode 3 (closing [promise_line; adopting_line; adopting_line; "X"]) None
    = DecodeReturns d /\
    heap (final_state d) !! 0%nat = Some (Follows (@Foreign host (PromiseObj 1))) /\
    heap (final_state d) !! 1%nat = Some Pending /\
    heap (final_state d) !! 2%nat = Some (Rejected SyntaxError) /\
    deferred (decoder (final_state d)) !! "0" = Some 0%nat /\
    deferred (decoder (final_state d)) !! "7" = Some 2%nat /\
    ~ nobody_waits (final_state d).
Proof.
  eexists. split; [reflexivity|]. repeat split.
  intros Hnone. destruct (Hnone "0" 0%nat eq_refl) as (p & Hp & Hs).
  change (Some (Follows (@Foreign host (PromiseObj 1))) = Some p) in Hp.
  injection Hp as <-. discriminate Hs.
Qed.

Lemma unparsable_payload_witness :
  JS.char0 "P0:{" = Some "P" /\
  parse_json "{" = None /\
  dispatch registered "P0:{" = (Throw SyntaxError, registered) /\
  dispatch registered "P7:{"
  = (Throw (Error "Deferred ID 7 not found in stream"), registered).
Proof.
  split; [reflexivity|]. split; [reflexivity|]. split.
  - exact (unparsable_payload (H:=host) (H0:=unflattener) registered "P0:{"
             (or_introl eq_refl) eq_refl).
  - exact (unparsable_payload (H:=host) (H0:=unflattener) registered "P7:{"
             (or_introl eq_refl) eq_refl).
Defined.

Lemma settlement_delivers_witness :
  lookup_deferred (decoder registered) (parse_number "0") = Some 0%nat /\
  parse_json "[7]" = Some (JArr [JNum 7]) /\
  (exists st2,
    dispatch registered "E0:[7]" = (Normal tt, st2) /\
    heap st2 !! 0%nat = Some (Rejected (@Foreign host (Num 7)))) /\
  (exists st2,
    dispatch registered "P0:[7]" = (Normal tt, st2) /\
    heap st2 !! 0%nat = Some (Fulfilled (@Foreign host (Num 7)))) /\
  (exists st2,
    dispatch registered adopting_line = (Normal tt, st2) /\
    heap st2 !! 0%nat = Some (Follows (@Foreign host (PromiseObj 1)))).
Proof.
  split; [reflexivity|]. split; [reflexivity|]. split; [|split].
  - destruct (settlement_line_delivers (H:=host) (H0:=unflattener) registered "E0:[7]"
                0%nat (JArr [JNum 7]) (@Foreign host (Num 7))
                (sample_unflatten registered (JArr [JNum 7])).2
                (or_intror eq_refl) eq_refl eq_refl eq_refl eq_refl)
      as (st2 & Hd & Hl & _).
    exists st2. split; [exact Hd|exact Hl].
  - destruct (settlement_line_delivers (H:=host) (H0:=unflattener) registered "P0:[7]"
                0%nat (JArr [JNum 7]) (@Foreign host (Num 7))
                (sample_unflatten registered (JArr [JNum 7])).2
                (or_introl eq_refl) eq_refl eq_refl eq_refl eq_refl)
      as (st2 & Hd & Hl & _).
    exists st2. split; [exact Hd|exact Hl].
  - destruct (settlement_line_delivers (H:=host) (H0:=unflattener) registered
                adopting_line
                0%nat (JArr [JArr [JStr "P"; JNum 7]]) (@Foreign host (PromiseObj 1))
                (sample_unflatten registered (JArr [JArr [JStr "P"; JNum 7]])).2
                (or_introl eq_refl) eq_refl eq_refl eq_refl eq_refl)
      as (st2 & Hd & Hl & _).
    exists st2. split; [exact Hd|exact Hl].
Defined.

Lemma header_fields_witness :
  "P"%char <> ":"%char /\
  JS.indexOf ":"%char "12" = -1 /\
  JS.indexOf ":"%char "P12:[1]" = 3 /\
  JS.slice "P12:[1]" 1 (JS.indexOf ":"%char "P12:[1]") = "12" /\
  JS.slice_from "P12:[1]" (JS.indexOf ":"%char "P12:[1]" + 1) = "[1]".
Proof.
  split; [discriminate|]. split; [reflexivity|].
  apply (header_fields_are_recovered "P"%char "12" "[1]"); [discriminate|reflexivity].
Defined.

Lemma header_without_colon_witness :
  JS.indexOf ":"%char "P12" = -1 /\
  JS.slice_from "P12" (JS.indexOf ":"%char "P12" + 1) = "P12" /\
  JS.slice "P12" 1 (JS.indexOf ":"%char "P12") = "1".
Proof.
  split; [reflexivity|].
  exact (header_without_colon "P12" eq_refl).
Defined.

Lemma first_fault_witness :
  drained registered ["P0:[1]"] = Some resolved_once /\
  dispatch resolved_once "X" = (Throw SyntaxError, resolved_once) /\
  decode 2 (closing [promise_line; "P0:[1]"; "X"; "P0:[2]"]) None
  = DecodeReturns
      {| result_value := @Foreign host (PromiseObj 0);
         result_done := Pending;
         done_deferred := Rejected SyntaxError;
         final_state := reject_all SyntaxError resolved_once;
         final_reader := closing ["P0:[2]"] |}.
Proof.
  split; [reflexivity|]. split; [reflexivity|].
  apply (drain_stops_at_the_first_fault (H:=host) (H0:=unflattener) 0
           (closing [promise_line; "P0:[1]"; "X"; "P0:[2]"]) None
           (@Foreign host (PromiseObj 0)) registered
           (closing ["P0:[1]"; "X"; "P0:[2]"]) ["P0:[1]"] resolved_once "X"
           ["P0:[2]"] SyntaxError resolved_once);
    first [reflexivity | discriminate].
Defined.

Lemma one_outstanding_in_step : in_step one_outstanding.
Proof. split; cbn; first [reflexivity | lia]. Qed.

Lemma table_grows_witness :
  flatten_contract /\
  in_step one_outstanding /\
  grows one_outstanding
    (settlement_loop 2 one_outstanding
       [Settles 0 (Fulfilled (@Foreign host (Num 7)))]).2.
Proof.
  split; [exact sample_flatten_contract|]. split; [exact one_outstanding_in_step|].
  exact (table_only_grows (H:=host) (H0:=flattener) sample_flatten_contract 2
           one_outstanding [Settles 0 (Fulfilled (@Foreign host (Num 7)))]
           one_outstanding_in_step).
Defined.

Lemma aborted_signal_witness :
  signal (encoder (fire (@Foreign host (Str "stop")) one_outstanding))
  = Some {| aborted := true; reason := @Foreign host (Str "stop") |} /\
  registers_nothing (normalize (@Foreign host (Str "stop"))) /\
  exists fs st',
    settlement_loop 2 (fire (@Foreign host (Str "stop")) one_outstanding) []
    = (StreamClosed, st') /\
    enqueued st' = enqueued one_outstanding ++ fs /\
    length fs = 1%nat /\
    Forall2 (is_rejection_for (@Foreign host (Str "stop"))) [0] fs.
Proof.
  assert (Hq : registers_nothing (normalize (@Foreign host (Str "stop"))))
    by (apply sample_registers_nothing; reflexivity).
  split; [reflexivity|]. split; [exact Hq|].
  exact (aborted_signal_needs_no_event (H:=host) (H0:=flattener) 0
           (fire (@Foreign host (Str "stop")) one_outstanding)
           {| aborted := true; reason := @Foreign host (Str "stop") |} []
           eq_refl eq_refl Hq).
Defined.

Lemma completion_order_witness :
  is_aborted two_outstanding = false /\
  NoDup [1; 0] /\
  exists fs st',
    settlement_loop 3 two_outstanding
      [Settles 1 (Rejected (@Foreign host (Num 3)));
       Settles 0 (Fulfilled (@Foreign host (Num 7)))]
    = (StreamClosed, st') /\
    enqueued st' = enqueued two_outstanding ++ fs /\
    Forall2 answers
      [Settles 1 (Rejected (@Foreign host (Num 3)));
       Settles 0 (Fulfilled (@Foreign host (Num 7)))] fs.
Proof.
  assert (Hnd : NoDup [1; 0]).
  { apply NoDup_cons. split; [|apply NoDup_singleton].
    intros Hin. apply list_elem_of_singleton in Hin. discriminate. }
  split; [reflexivity|]. split; [exact Hnd|].
  destruct (frames_follow_completion_order (H:=host) (H0:=flattener) 0
              [Settles 1 (Rejected (@Foreign host (Num 3)));
               Settles 0 (Fulfilled (@Foreign host (Num 7)))]
              two_outstanding eq_refl)
    as (fs & st' & Hloop & Hfs & Hall & Hreg).
  - repeat constructor; apply sample_registers_nothing; reflexivity.
  - exact Hnd.
  - intros d Hd. apply elem_of_cons in Hd. destruct Hd as [->|Hd]; [eexists; reflexivity|].
    apply list_elem_of_singleton in Hd. subst d. eexists; reflexivity.
  - exists fs, st'. split; [|split; assumption].
    refine (eq_trans Hloop _).
    destruct (decide _) as [_|Hne]; [reflexivity|].
    exfalso. apply Hne. rewrite Hreg. reflexivity.
Defined.

(** That run frame by frame: the frame of id [1] comes before the frame of
    id [0]. *)
Example completion_order_run :
  render <$> enqueued
    (settlement_loop 3 two_outstanding
       [Settles 1 (Rejected (@Foreign host (Num 3)));
        Settles 0 (Fulfilled (@Foreign host (Num 7)))]).2
  = ["[[" +:+ quoted "P" +:+ ",0],[" +:+ quoted "P" +:+ ",1]]" +:+ newline;
     "E1:[[" +:+ quoted "E" +:+ "," +:+ quoted "An unknown error occurred" +:+ "]]"
       +:+ newline;
     "P0:[7]" +:+ newline].
Proof. reflexivity. Qed.

Lemma sample_abort_error_is_quiet (s : AbortSignal) :
  registers_nothing (normalize (abort_reason s)).
Proof.
  apply sample_registers_nothing.
  unfold normalize. destruct (is_error_object (abort_reason s)) eqn:He; [|reflexivity].
  destruct (abort_reason s) as [| |m|[]]; simpl in *; try reflexivity; discriminate.
Qed.

Lemma loop_settles_witness :
  (forall s : AbortSignal, registers_nothing (normalize (abort_reason s))) /\
  (length [Settles 0 (Fulfilled (@Foreign host (Num 7)))] + 2 <= 3)%nat /\
  (settlement_loop 3 one_outstanding [Settles 0 (Fulfilled (@Foreign host (Num 7)))]).1
  <> NoFuel /\
  forall fuel', (3 <= fuel')%nat ->
    settlement_loop fuel' one_outstanding [Settles 0 (Fulfilled (@Foreign host (Num 7)))]
    = settlement_loop 3 one_outstanding [Settles 0 (Fulfilled (@Foreign host (Num 7)))].
Proof.
  split; [exact sample_abort_error_is_quiet|]. split; [apply le_n|].
  exact (loop_settles_within_the_schedule (H:=host) (H0:=flattener)
           [Settles 0 (Fulfilled (@Foreign host (Num 7)))] one_outstanding 3
           sample_abort_error_is_quiet (le_n 3)).
Defined.

Lemma written_header_witness :
  "P"%char <> ":"%char /\
  let line := String "P"%char (pretty 0 +:+ String ":"%char (render_payload (Sentinel (-1)))) in
  render (Settlement (String "P"%char EmptyString) 0 (Sentinel (-1))) = line +:+ newline /\
  JS.char0 line = Some (String "P"%char EmptyString) /\
  JS.slice line 1 (JS.indexOf ":"%char line) = pretty 0 /\
  JS.slice_from line (JS.indexOf ":"%char line + 1) = render_payload (Sentinel (-1)).
Proof.
  assert (Hm : "P"%char <> ":"%char) by discriminate.
  split; [exact Hm|].
  exact (written_header_is_read_back (H:=host) "P"%char 0 (Sentinel (-1)) Hm).
Defined.

Lemma written_frame_witness :
  Number (pretty 0) = JS.Int 0 /\
  exists line,
    render (Settlement TYPE_PROMISE 0 (Fragments [Some "1"])) = line +:+ newline /\
    dispatch registered line = (Normal tt, resolved_once).
Proof.
  split; [reflexivity|].
  destruct (written_frame_is_dispatched (H:=host) (H0:=unflattener) registered
              "P"%char "E"%char false 0 (Fragments [Some "1"])
              eq_refl eq_refl) as (line & Hline & Hd);
    [discriminate|discriminate|discriminate|reflexivity|].
  exists line. split; [exact Hline|]. rewrite Hd. reflexivity.
Defined.

Lemma one_line_witness :
  flatten (initial_encoder None (Some {| aborted := true; reason := Undefined |}))
    (@Foreign host (Num 7))
  = (RefNumber 0,
     (flatten (initial_encoder None (Some {| aborted := true; reason := Undefined |}))
        (@Foreign host (Num 7))).2) /\
  exists st,
    encode 1 (@Foreign host (Num 7)) None
      (Some {| aborted := true; reason := Undefined |})
      [Aborts Undefined] = (StreamClosed, st) /\
    enqueued st = [Initial (Fragments [Some "7"])].
Proof.
  split; [reflexivity|].
  destruct (promise_free_input_is_one_line (H:=host) (H0:=flattener) 0
              (@Foreign host (Num 7)) None
              (Some {| aborted := true; reason := Undefined |}) [Aborts Undefined]
              0 _ eq_refl eq_refl) as (st & Hrun & Hq & _).
  exists st. split; [exact Hrun|exact Hq].
Defined.

(** A stream of [encode], frame by frame, read by [decode]. *)
Example encode_then_decode_run :
  let st := (encode 3 (@Foreign host (PromiseObj 0)) None None
               [Settles 0 (Fulfilled (@Foreign host (Num 1)))]).2 in
  render <$> enqueued st = [promise_line +:+ newline; "P0:[1]" +:+ newline] /\
  exists r, decode 3 (closing [promise_line; "P0:[1]"]) None = DecodeReturns r /\
    result_value r = @Foreign host (PromiseObj 0) /\
    result_done r = Fulfilled Undefined /\
    final_state r = resolved_once.
Proof. split; [reflexivity|]. eexists. split; [reflexivity|]. repeat split. Qed.

End MoreExamples.
